(** * viper: a small scripting language, implemented twice

    The repository holds two generations of the same interpreter:
    - [src/spam.py], the self-contained prototype (tokenizer, Pratt parser,
      tag-dispatching evaluator and a demo driver), embedded in [Module Spam];
    - [src/viper/_parser.py] and [src/viper/interpreter.py], the extended
      implementation whose nodes evaluate themselves, embedded in
      [Module Viper].

    Both run on the host language's dynamically typed numbers; the part of
    the host that the programs exercise is embedded in [Module Py]. *)

From Stdlib Require Import ZArith String Ascii List Bool Lia.
From Stdlib Require Import Floats.SpecFloat.
From stdpp Require Import gmap strings.

Local Open Scope string_scope.
Local Open Scope Z_scope.

#[local] Set Warnings "-register-all,-clear-no-such-hyp".

(* ===================================================================== *)
(** * The host language: values, exceptions, arithmetic                   *)
(* ===================================================================== *)

Module Py.

(** Exceptions that the two programs can raise.  Every one of them is fatal:
    nothing in the repository catches an exception. *)
Inductive exn :=
  | IndexError                      (* string or list index out of range *)
  | KeyError                        (* missing dictionary key *)
  | AssertionError                  (* a failed [assert] *)
  | AttributeError                  (* attribute missing on an object *)
  | TypeError                       (* operator applied to [None] *)
  | ValueError                      (* [float] of a malformed string *)
  | ZeroDivisionError
  | OverflowError
  | UnknownToken                    (* Exception("Unknown token.") *)
  | UnknownOperator                 (* Exception("Unknown operator.") *)
  | NotDefined (name : string).     (* Exception(f"{name} is not defined.") *)

(** Outcome of a computation: a value, a raised exception, or the model's
    recursion budget exhausted before either was reached. *)
Inductive result (A : Type) :=
  | Ok (a : A)
  | Raise (e : exn)
  | OutOfFuel.
Arguments Ok {A} a.
Arguments Raise {A} e.
Arguments OutOfFuel {A}.

#[global] Instance result_ret : MRet result := fun A a => Ok a.
#[global] Instance result_bind : MBind result := fun A B f m =>
  match m with
  | Ok a => f a
  | Raise e => Raise e
  | OutOfFuel => OutOfFuel
  end.

(** Binary64 floating point, round to nearest even. *)
Definition prec : Z := 53.
Definition emax : Z := 1024.
Definition float : Type := spec_float.

Definition float_of_Z (z : Z) : float := binary_normalize prec emax z 0 false.

Definition is_inf (f : float) : bool :=
  match f with S754_infinity _ => true | _ => false end.

Definition is_zero (f : float) : bool :=
  match f with S754_zero _ => true | _ => false end.

(** Runtime values: [None], [bool], [int] (unbounded) and [float]. *)
Inductive value :=
  | VNone
  | VBool (b : bool)
  | VInt (z : Z)
  | VFloat (f : float).

#[global] Instance float_eq_dec : EqDecision float.
Proof. solve_decision. Defined.
#[global] Instance value_eq_dec : EqDecision value.
Proof. solve_decision. Defined.

(** [x is None] *)
Definition is_None (v : value) : bool :=
  match v with VNone => true | _ => false end.

(** Truth value of an object in a condition. *)
Definition truthy (v : value) : bool :=
  match v with
  | VNone => false
  | VBool b => b
  | VInt z => negb (z =? 0)
  | VFloat f => negb (is_zero f)
  end.

(** Numeric view of a value: [bool] is a subclass of [int]. *)
Inductive num := NInt (z : Z) | NFloat (f : float).

Definition as_num (v : value) : option num :=
  match v with
  | VNone => None
  | VBool b => Some (NInt (Z.b2z b))
  | VInt z => Some (NInt z)
  | VFloat f => Some (NFloat f)
  end.

(** Conversion of an operand to a double; an [int] beyond the double range
    does not convert. *)
Definition to_double (n : num) : result float :=
  match n with
  | NFloat f => Ok f
  | NInt z => let f := float_of_Z z in
              if is_inf f then Raise OverflowError else Ok f
  end.

Definition arith (zop : Z -> Z -> Z) (fop : float -> float -> float)
    (a b : value) : result value :=
  match as_num a, as_num b with
  | Some (NInt x), Some (NInt y) => Ok (VInt (zop x y))
  | Some x, Some y =>
      fx ← to_double x; fy ← to_double y; Ok (VFloat (fop fx fy))
  | _, _ => Raise TypeError
  end.

Definition add : value -> value -> result value := arith Z.add (SFadd prec emax).
Definition sub : value -> value -> result value := arith Z.sub (SFsub prec emax).
Definition mul : value -> value -> result value := arith Z.mul (SFmul prec emax).

(** True division of two integers: the correctly rounded quotient. *)
Definition int_true_divide (x y : Z) : result value :=
  if y =? 0 then Raise ZeroDivisionError
  else
    let s := xorb (x <? 0) (y <? 0) in
    if x =? 0 then Ok (VFloat (S754_zero s))
    else
      let '(mz, ez, lz) :=
        SFdiv_core_binary prec emax (Z.abs x) 0 (Z.abs y) 0 in
      let f := binary_round_aux prec emax s mz ez lz in
      if is_inf f then Raise OverflowError else Ok (VFloat f).

Definition div (a b : value) : result value :=
  match as_num a, as_num b with
  | Some (NInt x), Some (NInt y) => int_true_divide x y
  | Some x, Some y =>
      fx ← to_double x; fy ← to_double y;
      if is_zero fy then Raise ZeroDivisionError
      else Ok (VFloat (SFdiv prec emax fx fy))
  | _, _ => Raise TypeError
  end.

(** Exact comparison of a double with an integer. *)
Definition compare_float_Z (f : float) (z : Z) : option comparison :=
  match f with
  | S754_nan => None
  | S754_infinity s => Some (if s then Lt else Gt)
  | S754_zero _ => Some (0 ?= z)
  | S754_finite s m e =>
      let sm := if s then Z.neg m else Z.pos m in
      Some (if 0 <=? e then (sm * 2 ^ e ?= z) else (sm ?= z * 2 ^ (- e)))
  end.

Definition lt (a b : value) : result value :=
  match as_num a, as_num b with
  | Some (NInt x), Some (NInt y) => Ok (VBool (x <? y))
  | Some (NFloat x), Some (NFloat y) => Ok (VBool (SFltb x y))
  | Some (NFloat x), Some (NInt y) =>
      Ok (VBool (match compare_float_Z x y with Some Lt => true | _ => false end))
  | Some (NInt x), Some (NFloat y) =>
      Ok (VBool (match compare_float_Z y x with Some Gt => true | _ => false end))
  | _, _ => Raise TypeError
  end.

(** Character classes of the host's [str], on code points below 256 (a
    source text is a [string] holding one code point per character). *)
Definition in_range (lo hi : nat) (c : ascii) : bool :=
  let n := nat_of_ascii c in (lo <=? n)%nat && (n <=? hi)%nat.

Definition isspace (c : ascii) : bool :=
  in_range 9 13 c || in_range 28 32 c || in_range 133 133 c
  || in_range 160 160 c.

Definition is_ascii_digit (c : ascii) : bool := in_range 48 57 c.

Definition isdigit (c : ascii) : bool :=
  is_ascii_digit c || in_range 178 179 c || in_range 185 185 c.

Definition isalpha (c : ascii) : bool :=
  in_range 65 90 c || in_range 97 122 c || in_range 170 170 c
  || in_range 181 181 c || in_range 186 186 c || in_range 192 214 c
  || in_range 216 246 c || in_range 248 255 c.

(** [s[a:b]] for [0 <= a]: slices clip, they never raise. *)
Definition slice (s : string) (a b : nat) : string := substring a (b - a) s.

(** [float(s)] on a run of digit characters, as the tokenizer's [number]
    produces them: the nearest double to the decimal numeral; a digit
    character outside [0-9] is not part of a numeral. *)
Fixpoint decimal (s : string) (acc : Z) : option Z :=
  match s with
  | EmptyString => Some acc
  | String c s' =>
      if is_ascii_digit c
      then decimal s' (10 * acc + Z.of_nat (nat_of_ascii c - 48))
      else None
  end.

Definition float_of_str (s : string) : result float :=
  match s with
  | EmptyString => Raise ValueError
  | _ => match decimal s 0 with
         | Some z => Ok (float_of_Z z)
         | None => Raise ValueError
         end
  end.

(** Decimal numeral of an integer, as [str] prints it. *)
Fixpoint digits_of (fuel : nat) (n : N) (acc : string) : string :=
  match fuel with
  | O => acc
  | S fuel' =>
      let acc' := String (ascii_of_N (48 + n mod 10)) acc in
      if (n <? 10)%N then acc' else digits_of fuel' (n / 10)%N acc'
  end.

Definition str_of_Z (z : Z) : string :=
  let n := Z.abs_N z in
  let d := digits_of (S (N.to_nat (N.log2 n))) n "" in
  if z <? 0 then "-" +:+ d else d.

(** [str(v)], the text [print] writes for [v].  For a double the host
    prints the shortest numeral that reads back as the same double; that is
    [<integer>.0] for an integral double of magnitude below 10^16, the only
    doubles whose text is needed here, and [None] stands for the rest. *)
Definition str_of_float (f : float) : option string :=
  match f with
  | S754_nan => Some "nan"
  | S754_infinity s => Some (if s then "-inf" else "inf")
  | S754_zero s => Some (if s then "-0.0" else "0.0")
  | S754_finite s m e =>
      let integral := (0 <=? e) || (Z.pos m mod 2 ^ (- e) =? 0) in
      let n := if 0 <=? e then Z.pos m * 2 ^ e else Z.pos m / 2 ^ (- e) in
      if integral && (n <? 10 ^ 16)
      then Some ((if s then "-" else "") +:+ str_of_Z n +:+ ".0")
      else None
  end.

Definition str (v : value) : option string :=
  match v with
  | VNone => Some "None"
  | VBool b => Some (if b then "True" else "False")
  | VInt z => Some (str_of_Z z)
  | VFloat f => str_of_float f
  end.

End Py.

Import Py.

(* ===================================================================== *)
(** * The prototype: [src/spam.py]                                        *)
(* ===================================================================== *)

Module Spam.

(** The embedded demo program, after [textwrap.dedent]. *)
Definition source : string :=
"
fn fib(n) {
    if (n < 2) return n;
    return fib(n-1)+fib(n-2);
}
print fib(10);
".

Module TokenKind.
Inductive t :=
  | PRINT | LET | NUMBER | PLUS | MINUS | STAR | SLASH | EQUAL
  | LPAREN | RPAREN | LBRACE | RBRACE | IF | ELSE | FN | RETURN
  | LT | COMMA | SEMICOLON | IDENTIFIER | EOF.
#[global] Instance eq_dec : EqDecision t.
Proof. solve_decision. Defined.
End TokenKind.

Record Token := mkToken { kind : TokenKind.t; value : string }.

#[global] Instance Token_eq_dec : EqDecision Token.
Proof. solve_decision. Defined.

(** ** Tokenizer

    The tokenizer object is its [source] and the cursor [current]; every
    method takes the cursor and returns the new one. *)

Definition is_identifier_char (c : ascii) : bool :=
  isalpha c || isdigit c || Ascii.eqb c "_".

(** The scanning loop shared by [identifier] and [number]:
    [while p(source[c]): c += 1], started with [rest = source[c:]].
    Reading [source[c]] at the end of the text raises. *)
Fixpoint scan (p : ascii -> bool) (rest : string) (c : nat) : result nat :=
  match rest with
  | EmptyString => Raise IndexError
  | String ch rest' => if p ch then scan p rest' (S c) else Ok c
  end.

Definition suffix (s : string) (c : nat) : string :=
  slice s c (String.length s).

Definition identifier (source : string) (current : nat) : result (Token * nat) :=
  c ← scan is_identifier_char (suffix source current) current;
  Ok (mkToken TokenKind.IDENTIFIER (slice source current c), (c - 1)%nat).

Definition number (source : string) (current : nat) : result (Token * nat) :=
  c ← scan isdigit (suffix source current) current;
  Ok (mkToken TokenKind.NUMBER (slice source current c), (c - 1)%nat).

(** [lookahead] returns whether the text after the cursor starts with
    [thing], and the cursor moved past it when it does. *)
Definition lookahead (source : string) (current : nat) (thing : string)
    : bool * nat :=
  if String.eqb
       (slice source (current + 1) (current + String.length thing + 1)) thing
  then (true, (current + String.length thing)%nat)
  else (false, current).

(** One arm of the keyword cases of [tokenize]. *)
Definition keyword (source : string) (current : nat) (thing : string)
    (k : TokenKind.t) (text : string) : result (Token * nat) :=
  let '(found, current') := lookahead source current thing in
  if found then Ok (mkToken k text, current') else identifier source current.

Definition single (k : TokenKind.t) (text : string) (current : nat)
    : result (Token * nat) :=
  Ok (mkToken k text, current).

(** The [match] of [tokenize] on the character under the cursor. *)
Definition token_at (source : string) (current : nat) (v : ascii)
    : result (Token * nat) :=
  if Ascii.eqb v "i" then keyword source current "f" TokenKind.IF "if"
  else if Ascii.eqb v "f" then keyword source current "n" TokenKind.FN "fn"
  else if Ascii.eqb v "e" then keyword source current "lse" TokenKind.ELSE "else"
  else if Ascii.eqb v "l" then keyword source current "et" TokenKind.LET "let"
  else if Ascii.eqb v "p" then keyword source current "rint" TokenKind.PRINT "print"
  else if Ascii.eqb v "r" then keyword source current "eturn" TokenKind.RETURN "return"
  else if isalpha v then identifier source current
  else if isdigit v then number source current
  else if Ascii.eqb v "+" then single TokenKind.PLUS "+" current
  else if Ascii.eqb v "-" then single TokenKind.MINUS "-" current
  else if Ascii.eqb v "*" then single TokenKind.STAR "*" current
  else if Ascii.eqb v "/" then single TokenKind.SLASH "/" current
  else if Ascii.eqb v "=" then single TokenKind.EQUAL "=" current
  else if Ascii.eqb v ";" then single TokenKind.SEMICOLON ";" current
  else if Ascii.eqb v "," then single TokenKind.COMMA "," current
  else if Ascii.eqb v "(" then single TokenKind.LPAREN "(" current
  else if Ascii.eqb v ")" then single TokenKind.RPAREN ")" current
  else if Ascii.eqb v "{" then single TokenKind.LBRACE "{" current
  else if Ascii.eqb v "}" then single TokenKind.RBRACE "}" current
  else if Ascii.eqb v "<" then single TokenKind.LT "<" current
  else Raise UnknownToken.

(** The loop of [tokenize].  Each round moves the cursor forward, so the
    length of the text bounds the number of rounds. *)
Fixpoint tokenize_loop (fuel : nat) (source : string) (current : nat)
    (tokens : list Token) : result (list Token) :=
  match fuel with
  | O => OutOfFuel
  | S fuel' =>
      match String.get current source with
      | None => Ok (tokens ++ [mkToken TokenKind.EOF ""])%list
      | Some v =>
          if isspace v then tokenize_loop fuel' source (S current) tokens
          else
            '(token, current') ← token_at source current v;
            tokenize_loop fuel' source (S current') (tokens ++ [token])%list
      end
  end.

Definition tokenize (source : string) : result (list Token) :=
  tokenize_loop (S (String.length source)) source 0 [].

(** ** Syntax trees

    A node is a tag ([kind]) next to a payload; nothing ties the tag to the
    payload's class, so the evaluator checks it with [isinstance]. *)

Module StatementKind.
Inductive t := LET | PRINT | IF | FN | BLOCK | RETURN | EXPRESSION.
#[global] Instance eq_dec : EqDecision t.
Proof. solve_decision. Defined.
End StatementKind.

Module ExpressionKind.
Inductive t := ASSIGN | BINARY | LITERAL | VARIABLE | CALL.
#[global] Instance eq_dec : EqDecision t.
Proof. solve_decision. Defined.
End ExpressionKind.

Module BinaryExpressionKind.
Inductive t := ADD | SUB | MUL | DIV | LT | ASSIGN.
#[global] Instance eq_dec : EqDecision t.
Proof. solve_decision. Defined.
End BinaryExpressionKind.

Inductive Expression :=
  | mkExpression (kind : ExpressionKind.t) (value : ExpressionValue)
with ExpressionValue :=
  | CallExpression (callee : Expression) (args : list Expression)
  | LiteralExpression (expr : float)
  | VariableExpression (name : string)
  | BinaryExpression (kind : BinaryExpressionKind.t) (lhs rhs : Expression).

Inductive Statement :=
  | mkStatement (kind : StatementKind.t) (stmt : StatementValue)
with StatementValue :=
  | LetStatement (expr : Expression)
  | PrintStatement (expr : Expression)
  | IfStatement (condition : Expression) (then_branch : Statement)
      (else_branch : option Statement)
  | FnStatement (name : string) (arguments : list Expression)
      (body : list Statement)
  | BlockStatement (body : list Statement)
  | ReturnStatement (expr : Expression)
  | ExpressionStatement (expr : Expression).

(** ** Parser

    The parser object is its list of remaining [tokens], popped from the
    front; a parsing method is a function from that list to its result
    and the list left over. *)

Definition Parser (A : Type) : Type := list Token -> result (A * list Token).

Definition ret {A} (a : A) : Parser A := fun tokens => Ok (a, tokens).
Definition bind {A B} (m : Parser A) (f : A -> Parser B) : Parser B :=
  fun tokens =>
    match m tokens with
    | Ok (a, tokens') => f a tokens'
    | Raise e => Raise e
    | OutOfFuel => OutOfFuel
    end.
Definition raise {A} (e : exn) : Parser A := fun _ => Raise e.
Definition out_of_fuel {A} : Parser A := fun _ => OutOfFuel.

Declare Scope parser_scope.
Delimit Scope parser_scope with parser.
Notation "x <~ m ;; k" := (bind m (fun x => k))
  (at level 100, m at next level, right associativity) : parser_scope.
Notation "m ;;; k" := (bind m (fun _ => k))
  (at level 100, right associativity) : parser_scope.

Definition precedence (k : TokenKind.t) : option Z :=
  match k with
  | TokenKind.EQUAL => Some 1
  | TokenKind.LT => Some 2
  | TokenKind.PLUS => Some 3
  | TokenKind.MINUS => Some 3
  | TokenKind.STAR => Some 4
  | TokenKind.SLASH => Some 4
  | TokenKind.LPAREN => Some 8
  | TokenKind.NUMBER => Some 10
  | _ => None
  end.

Inductive PrefixParselet := NumberParselet | NameParselet.
Inductive InfixParselet := CallParselet | BinaryOperatorParselet.

(** The two tables that [Parser.__init__] fills through [register]. *)
Definition prefix_parselets (k : TokenKind.t) : option PrefixParselet :=
  match k with
  | TokenKind.NUMBER => Some NumberParselet
  | TokenKind.IDENTIFIER => Some NameParselet
  | _ => None
  end.

Definition infix_parselets (k : TokenKind.t) : option InfixParselet :=
  match k with
  | TokenKind.PLUS | TokenKind.MINUS | TokenKind.STAR | TokenKind.SLASH
  | TokenKind.EQUAL | TokenKind.LT => Some BinaryOperatorParselet
  | TokenKind.LPAREN => Some CallParselet
  | _ => None
  end.

Definition consume (kind : option TokenKind.t) : Parser Token :=
  fun tokens =>
    match tokens with
    | [] => Raise AssertionError
    | t :: tokens' =>
        match kind with
        | Some k =>
            if bool_decide (t.(Spam.kind) = k) then Ok (t, tokens')
            else Raise AssertionError
        | None => Ok (t, tokens')
        end
    end.

Definition next_token_precedence : Parser Z :=
  fun tokens =>
    match tokens with
    | [] => Ok (0, tokens)
    | t :: _ => Ok (default 0 (precedence t.(Spam.kind)), tokens)
    end.

Definition check (kind : TokenKind.t) : Parser bool :=
  fun tokens =>
    match tokens with
    | [] => Raise IndexError
    | t :: _ => Ok (bool_decide (t.(Spam.kind) = kind), tokens)
    end.

(** [match] is a keyword of the specification language, hence [match_]. *)
Fixpoint match_ (kinds : list TokenKind.t) : Parser bool :=
  match kinds with
  | [] => ret false
  | kind :: kinds' =>
      (b <~ check kind ;;
       if b then (consume (Some kind) ;;; ret true) else match_ kinds')%parser
  end.

Definition PrefixParselet_parse (p : PrefixParselet) (token : Token)
    : Parser Expression :=
  match p with
  | NumberParselet =>
      match float_of_str token.(Spam.value) with
      | Ok f => ret (mkExpression ExpressionKind.LITERAL (LiteralExpression f))
      | Raise e => raise e
      | OutOfFuel => out_of_fuel
      end
  | NameParselet =>
      ret (mkExpression ExpressionKind.VARIABLE
             (VariableExpression token.(Spam.value)))
  end.

(** The node [BinaryOperatorParselet.parse] builds once it has both sides. *)
Definition binary_node (token : Token) (left right : Expression)
    : Parser Expression :=
  let node ek bk := ret (mkExpression ek (BinaryExpression bk left right)) in
  let v := token.(Spam.value) in
  if String.eqb v "+" then node ExpressionKind.BINARY BinaryExpressionKind.ADD
  else if String.eqb v "-" then node ExpressionKind.BINARY BinaryExpressionKind.SUB
  else if String.eqb v "*" then node ExpressionKind.BINARY BinaryExpressionKind.MUL
  else if String.eqb v "/" then node ExpressionKind.BINARY BinaryExpressionKind.DIV
  else if String.eqb v "<" then node ExpressionKind.BINARY BinaryExpressionKind.LT
  else if String.eqb v "=" then node ExpressionKind.ASSIGN BinaryExpressionKind.ASSIGN
  else raise UnknownOperator.

Section ParserLoops.
Local Open Scope parser_scope.

(** Expressions.  [infix_loop] is the [while] of [parse_expression],
    [call_args] the [while True] of [CallParselet.parse]. *)
Fixpoint parse_expression (fuel : nat) (desired_precedence : Z)
    : Parser Expression :=
  match fuel with
  | O => out_of_fuel
  | S fuel' =>
      token <~ consume None ;;
      match prefix_parselets token.(Spam.kind) with
      | None => raise AssertionError
      | Some prefix_parselet =>
          left <~ PrefixParselet_parse prefix_parselet token ;;
          infix_loop fuel' desired_precedence left
      end
  end
with infix_loop (fuel : nat) (desired_precedence : Z) (left : Expression)
    : Parser Expression :=
  match fuel with
  | O => out_of_fuel
  | S fuel' =>
      p <~ next_token_precedence ;;
      if desired_precedence <? p then
        token <~ consume None ;;
        match infix_parselets token.(Spam.kind) with
        | None => raise AssertionError
        | Some infix_parselet =>
            left' <~ InfixParselet_parse fuel' infix_parselet left token ;;
            infix_loop fuel' desired_precedence left'
        end
      else ret left
  end
with InfixParselet_parse (fuel : nat) (p : InfixParselet)
    (left : Expression) (token : Token) : Parser Expression :=
  match fuel with
  | O => out_of_fuel
  | S fuel' =>
      match p with
      | BinaryOperatorParselet =>
          match precedence token.(Spam.kind) with
          | None => raise KeyError
          | Some q =>
              right <~ parse_expression fuel' q ;;
              binary_node token left right
          end
      | CallParselet =>
          closed <~ match_ [TokenKind.RPAREN] ;;
          args <~ (if closed then ret [] else call_args fuel' []) ;;
          consume (Some TokenKind.RPAREN) ;;;
          ret (mkExpression ExpressionKind.CALL (CallExpression left args))
      end
  end
with call_args (fuel : nat) (args : list Expression)
    : Parser (list Expression) :=
  match fuel with
  | O => out_of_fuel
  | S fuel' =>
      arg <~ parse_expression fuel' 0 ;;
      more <~ match_ [TokenKind.COMMA] ;;
      if more then call_args fuel' (args ++ [arg])%list
      else ret (args ++ [arg])%list
  end.

Definition expression_then_semicolon (fuel : nat) : Parser Expression :=
  expr <~ parse_expression fuel 0 ;;
  consume (Some TokenKind.SEMICOLON) ;;;
  ret expr.

Definition parse_print_statement (fuel : nat) : Parser Statement :=
  expr <~ expression_then_semicolon fuel ;;
  ret (mkStatement StatementKind.PRINT (PrintStatement expr)).

Definition parse_let_statement (fuel : nat) : Parser Statement :=
  expr <~ expression_then_semicolon fuel ;;
  ret (mkStatement StatementKind.LET (LetStatement expr)).

Definition parse_return_statement (fuel : nat) : Parser Statement :=
  expr <~ expression_then_semicolon fuel ;;
  ret (mkStatement StatementKind.RETURN (ReturnStatement expr)).

Definition parse_expression_statement (fuel : nat) : Parser Statement :=
  expr <~ expression_then_semicolon fuel ;;
  ret (mkStatement StatementKind.EXPRESSION (ExpressionStatement expr)).

(** [while not self.match([RPAREN]): arguments.append(...)] *)
Fixpoint fn_arguments (fuel : nat) (arguments : list Expression)
    : Parser (list Expression) :=
  match fuel with
  | O => out_of_fuel
  | S fuel' =>
      closed <~ match_ [TokenKind.RPAREN] ;;
      if closed then ret arguments
      else
        arg <~ parse_expression fuel' 0 ;;
        fn_arguments fuel' (arguments ++ [arg])%list
  end.

(** Statements.  [statements_until_rbrace] is the loop
    [while not self.match([RBRACE]): body.append(self.parse_statement())]
    of [parse_fn_statement] and [parse_block_statement]. *)
Fixpoint parse_statement (fuel : nat) : Parser Statement :=
  match fuel with
  | O => out_of_fuel
  | S fuel' =>
      is_let <~ match_ [TokenKind.LET] ;;
      if is_let then parse_let_statement fuel' else
      is_print <~ match_ [TokenKind.PRINT] ;;
      if is_print then parse_print_statement fuel' else
      is_fn <~ match_ [TokenKind.FN] ;;
      if is_fn then
        (* parse_fn_statement *)
        name <~ consume (Some TokenKind.IDENTIFIER) ;;
        consume (Some TokenKind.LPAREN) ;;;
        arguments <~ fn_arguments fuel' [] ;;
        consume (Some TokenKind.LBRACE) ;;;
        body <~ statements_until_rbrace fuel' [] ;;
        ret (mkStatement StatementKind.FN
               (FnStatement name.(Spam.value) arguments body))
      else
      is_if <~ match_ [TokenKind.IF] ;;
      if is_if then
        (* parse_if_statement *)
        consume (Some TokenKind.LPAREN) ;;;
        condition <~ parse_expression fuel' 0 ;;
        consume (Some TokenKind.RPAREN) ;;;
        then_branch <~ parse_statement fuel' ;;
        has_else <~ match_ [TokenKind.ELSE] ;;
        else_branch <~ (if has_else
                        then (s <~ parse_statement fuel' ;; ret (Some s))
                        else ret None) ;;
        ret (mkStatement StatementKind.IF
               (IfStatement condition then_branch else_branch))
      else
      is_return <~ match_ [TokenKind.RETURN] ;;
      if is_return then parse_return_statement fuel' else
      is_block <~ match_ [TokenKind.LBRACE] ;;
      if is_block then
        (* parse_block_statement *)
        body <~ statements_until_rbrace fuel' [] ;;
        ret (mkStatement StatementKind.BLOCK (BlockStatement body))
      else parse_expression_statement fuel'
  end
with statements_until_rbrace (fuel : nat) (body : list Statement)
    : Parser (list Statement) :=
  match fuel with
  | O => out_of_fuel
  | S fuel' =>
      closed <~ match_ [TokenKind.RBRACE] ;;
      if closed then ret body
      else
        s <~ parse_statement fuel' ;;
        statements_until_rbrace fuel' (body ++ [s])%list
  end.

(** [Parser.parse]: statements up to the [EOF] token. *)
Fixpoint parse_loop (fuel : nat) (ast : list Statement)
    : Parser (list Statement) :=
  match fuel with
  | O => out_of_fuel
  | S fuel' =>
      at_eof <~ check TokenKind.EOF ;;
      if at_eof then ret ast
      else
        s <~ parse_statement fuel' ;;
        parse_loop fuel' (ast ++ [s])%list
  end.
End ParserLoops.

Definition parse (fuel : nat) (tokens : list Token) : result (list Statement) :=
  '(ast, _) ← parse_loop fuel [] tokens; Ok ast.

(** ** Interpreter

    The interpreter object: the one flat scope [locals], the function table
    and, for [print], the values written to standard output so far. *)

Record Interpreter := mkInterpreter {
  locals : gmap string Py.value;
  functions : gmap string StatementValue;
  stdout : list Py.value
}.

Definition set_locals (l : gmap string Py.value) (self : Interpreter) :=
  mkInterpreter l self.(functions) self.(stdout).

Definition print (v : Py.value) (self : Interpreter) : Interpreter :=
  mkInterpreter self.(locals) self.(functions) (self.(stdout) ++ [v])%list.

(** [x.value.name]: only a variable node has a [name]. *)
Definition value_name (x : Expression) : result string :=
  match x with
  | mkExpression _ (VariableExpression name) => Ok name
  | _ => Raise AttributeError
  end.

(** [[x.value.name for x in arguments]] *)
Fixpoint argument_names (arguments : list Expression) : result (list string) :=
  match arguments with
  | [] => Ok []
  | x :: xs => n ← value_name x; ns ← argument_names xs; Ok (n :: ns)
  end.

Definition binary_operator (k : BinaryExpressionKind.t)
    : option (Py.value -> Py.value -> result Py.value) :=
  match k with
  | BinaryExpressionKind.ADD => Some Py.add
  | BinaryExpressionKind.SUB => Some Py.sub
  | BinaryExpressionKind.MUL => Some Py.mul
  | BinaryExpressionKind.DIV => Some Py.div
  | BinaryExpressionKind.LT => Some Py.lt
  | BinaryExpressionKind.ASSIGN => None
  end.

(** [exec_stmt], [exec] and [_eval] call one another; [comprehension] is
    the dictionary comprehension of the call case, which evaluates the
    arguments in the caller's scope.  Every call spends one unit of [fuel]. *)
Fixpoint exec_stmt (fuel : nat) (v : Statement) (self : Interpreter)
    : result (Py.value * Interpreter) :=
  match fuel with
  | O => OutOfFuel
  | S fuel' =>
      let 'mkStatement kind stmt := v in
      match kind with
      | StatementKind.PRINT =>
          match stmt with
          | PrintStatement e =>
              '(expr, self) ← _eval fuel' e self;
              Ok (VNone, print expr self)
          | _ => Raise AssertionError
          end
      | StatementKind.IF =>
          match stmt with
          | IfStatement condition then_branch _ =>
              '(c, self) ← _eval fuel' condition self;
              if truthy c then exec_stmt fuel' then_branch self
              else Ok (VNone, self)
          | _ => Raise AssertionError
          end
      | StatementKind.FN =>
          match stmt with
          | FnStatement name _ _ =>
              Ok (VNone,
                  mkInterpreter self.(locals)
                    (<[name := stmt]> self.(functions)) self.(stdout))
          | _ => Raise AssertionError
          end
      | StatementKind.RETURN =>
          match stmt with
          | ReturnStatement e => _eval fuel' e self
          | _ => Raise AssertionError
          end
      | StatementKind.EXPRESSION =>
          match stmt with
          | ExpressionStatement e =>
              '(_, self) ← _eval fuel' e self;
              Ok (VNone, self)
          | _ => Raise AssertionError
          end
      | StatementKind.LET | StatementKind.BLOCK => Raise AssertionError
      end
  end
with exec (fuel : nat) (ast : list Statement) (self : Interpreter)
    : result (Py.value * Interpreter) :=
  match fuel with
  | O => OutOfFuel
  | S fuel' =>
      match ast with
      | [] => Ok (VNone, self)
      | stmt :: rest =>
          '(retval, self) ← exec_stmt fuel' stmt self;
          if is_None retval then exec fuel' rest self
          else Ok (retval, self)
      end
  end
with _eval (fuel : nat) (expr : Expression) (self : Interpreter)
    : result (Py.value * Interpreter) :=
  match fuel with
  | O => OutOfFuel
  | S fuel' =>
      let 'mkExpression kind value := expr in
      match kind with
      | ExpressionKind.LITERAL =>
          match value with
          | LiteralExpression f => Ok (VFloat f, self)
          | _ => Raise AssertionError
          end
      | ExpressionKind.VARIABLE =>
          match value with
          | VariableExpression name =>
              match self.(locals) !! name with
              | Some x => Ok (x, self)
              | None => Raise KeyError
              end
          | _ => Raise AssertionError
          end
      | ExpressionKind.BINARY =>
          match value with
          | BinaryExpression k lhs rhs =>
              match binary_operator k with
              | Some op =>
                  '(a, self) ← _eval fuel' lhs self;
                  '(b, self) ← _eval fuel' rhs self;
                  r ← op a b;
                  Ok (r, self)
              | None => Raise AssertionError
              end
          | _ => Raise AssertionError
          end
      | ExpressionKind.CALL =>
          match value with
          | CallExpression callee args =>
              name ← value_name callee;
              match self.(functions) !! name with
              | None => Raise KeyError
              | Some (FnStatement _ arguments body) =>
                  let old_locals := self.(locals) in
                  names ← argument_names arguments;
                  '(new_locals, self) ←
                    comprehension fuel' (zip names args) ∅ self;
                  '(retval, self) ← exec fuel' body (set_locals new_locals self);
                  Ok (retval, set_locals old_locals self)
              | Some _ => Raise AttributeError
              end
          | _ => Raise AssertionError
          end
      | ExpressionKind.ASSIGN => Raise AssertionError
      end
  end
with comprehension (fuel : nat) (items : list (string * Expression))
    (d : gmap string Py.value) (self : Interpreter)
    : result (gmap string Py.value * Interpreter) :=
  match fuel with
  | O => OutOfFuel
  | S fuel' =>
      match items with
      | [] => Ok (d, self)
      | (k, v) :: items' =>
          '(x, self) ← _eval fuel' v self;
          comprehension fuel' items' (<[k := x]> d) self
      end
  end.

(** The body of [main] for a given program text: tokenize, parse, run in
    a fresh interpreter; the result is what was printed, one value per
    line. *)
Definition run (source : string) (fuel : nat) : result (list Py.value) :=
  tokens ← tokenize source;
  ast ← parse fuel tokens;
  '(_, interpreter) ← exec fuel ast (mkInterpreter ∅ ∅ []);
  Ok interpreter.(stdout).

Definition main (fuel : nat) : result (list Py.value) := run source fuel.

End Spam.

(* ===================================================================== *)
(** * The extended implementation: [src/viper]                            *)
(* ===================================================================== *)

Module Viper.

Module BinaryExpressionKind.
Inductive t := ADD | SUB | MUL | DIV | LT | ASSIGN.
#[global] Instance eq_dec : EqDecision t.
Proof. solve_decision. Defined.
End BinaryExpressionKind.

(** ** Syntax trees: one class per node, [_parser.py] *)

Inductive Expression :=
  | CallExpression (callee : Expression) (args : list Expression)
  | LiteralExpression (expr : float)
  | VariableExpression (name : string)
  | BinaryExpression (kind : BinaryExpressionKind.t) (lhs rhs : Expression)
  | AssignExpression (lhs rhs : Expression).

Inductive Statement :=
  | LetStatement (initializer : Expression)
  | PrintStatement (expr : Expression)
  | IfStatement (condition : Expression) (then_branch : Statement)
      (else_branch : option Statement)
  | FnStatement (name : string) (arguments : list Expression)
      (body : Statement)
  | BlockStatement (body : list Statement)
  | ReturnStatement (expr : Expression)
  | WhileStatement (condition : Expression) (body : Statement)
  | ForStatement (initializer condition advancement : Expression)
      (body : Statement)
  | ExpressionStatement (expr : Expression).

(** ** Tokens and parser: [Module Parsing]

    Modelled from the spec: [viper/tokenizer.py], from which [_parser.py]
    imports [Token] and [TokenKind], is not part of the sources.  The
    token kinds are those of the prototype and the two keywords [WHILE] and
    [FOR] that the parser below matches; a token is a kind and the text it
    was read from. *)

Module Parsing.

Module TokenKind.
Inductive t :=
  | PRINT | LET | NUMBER | PLUS | MINUS | STAR | SLASH | EQUAL
  | LPAREN | RPAREN | LBRACE | RBRACE | IF | ELSE | FN | RETURN
  | LT | COMMA | SEMICOLON | IDENTIFIER | EOF | WHILE | FOR.
#[global] Instance eq_dec : EqDecision t.
Proof. solve_decision. Defined.
End TokenKind.

Record Token := mkToken { kind : TokenKind.t; value : string }.

(** ** Parser, [_parser.py]

    As in the prototype, the parser object is its list of remaining
    tokens. *)

Definition Parser (A : Type) : Type := list Token -> result (A * list Token).

Definition ret {A} (a : A) : Parser A := fun tokens => Ok (a, tokens).
Definition bind {A B} (m : Parser A) (f : A -> Parser B) : Parser B :=
  fun tokens =>
    match m tokens with
    | Ok (a, tokens') => f a tokens'
    | Raise e => Raise e
    | OutOfFuel => OutOfFuel
    end.
Definition raise {A} (e : exn) : Parser A := fun _ => Raise e.
Definition out_of_fuel {A} : Parser A := fun _ => OutOfFuel.

Declare Scope viper_parser_scope.
Delimit Scope viper_parser_scope with viper_parser.
Notation "x <~ m ;; k" := (bind m (fun x => k))
  (at level 100, m at next level, right associativity) : viper_parser_scope.
Notation "m ;;; k" := (bind m (fun _ => k))
  (at level 100, right associativity) : viper_parser_scope.

Definition precedence (k : TokenKind.t) : option Z :=
  match k with
  | TokenKind.EQUAL => Some 1
  | TokenKind.LT => Some 2
  | TokenKind.PLUS => Some 3
  | TokenKind.MINUS => Some 3
  | TokenKind.STAR => Some 4
  | TokenKind.SLASH => Some 4
  | TokenKind.LPAREN => Some 8
  | TokenKind.NUMBER => Some 10
  | _ => None
  end.

Inductive PrefixParselet := NumberParselet | NameParselet.
Inductive InfixParselet := CallParselet | BinaryOperatorParselet.

Definition prefix_parselets (k : TokenKind.t) : option PrefixParselet :=
  match k with
  | TokenKind.NUMBER => Some NumberParselet
  | TokenKind.IDENTIFIER => Some NameParselet
  | _ => None
  end.

Definition infix_parselets (k : TokenKind.t) : option InfixParselet :=
  match k with
  | TokenKind.PLUS | TokenKind.MINUS | TokenKind.STAR | TokenKind.SLASH
  | TokenKind.EQUAL | TokenKind.LT => Some BinaryOperatorParselet
  | TokenKind.LPAREN => Some CallParselet
  | _ => None
  end.

Definition consume (kind : option TokenKind.t) : Parser Token :=
  fun tokens =>
    match tokens with
    | [] => Raise AssertionError
    | t :: tokens' =>
        match kind with
        | Some k =>
            if bool_decide (t.(Parsing.kind) = k) then Ok (t, tokens')
            else Raise AssertionError
        | None => Ok (t, tokens')
        end
    end.

Definition next_token_precedence : Parser Z :=
  fun tokens =>
    match tokens with
    | [] => Ok (0, tokens)
    | t :: _ => Ok (default 0 (precedence t.(Parsing.kind)), tokens)
    end.

Definition check (kind : TokenKind.t) : Parser bool :=
  fun tokens =>
    match tokens with
    | [] => Raise IndexError
    | t :: _ => Ok (bool_decide (t.(Parsing.kind) = kind), tokens)
    end.

Fixpoint match_ (kinds : list TokenKind.t) : Parser bool :=
  match kinds with
  | [] => ret false
  | kind :: kinds' =>
      (b <~ check kind ;;
       if b then (consume (Some kind) ;;; ret true)
       else match_ kinds')%viper_parser
  end.

Definition PrefixParselet_parse (p : PrefixParselet) (token : Token)
    : Parser Expression :=
  match p with
  | NumberParselet =>
      match float_of_str token.(Parsing.value) with
      | Ok f => ret (LiteralExpression f)
      | Raise e => raise e
      | OutOfFuel => out_of_fuel
      end
  | NameParselet => ret (VariableExpression token.(Parsing.value))
  end.

(** The node [BinaryOperatorParselet.parse] builds once it has both sides. *)
Definition binary_node (token : Token) (left right : Expression)
    : Parser Expression :=
  let v := token.(Parsing.value) in
  if String.eqb v "+" then ret (BinaryExpression BinaryExpressionKind.ADD left right)
  else if String.eqb v "-" then ret (BinaryExpression BinaryExpressionKind.SUB left right)
  else if String.eqb v "*" then ret (BinaryExpression BinaryExpressionKind.MUL left right)
  else if String.eqb v "/" then ret (BinaryExpression BinaryExpressionKind.DIV left right)
  else if String.eqb v "<" then ret (BinaryExpression BinaryExpressionKind.LT left right)
  else if String.eqb v "=" then ret (AssignExpression left right)
  else raise UnknownOperator.

Section ParserLoops.
Local Open Scope viper_parser_scope.

(** Expressions.  [infix_loop] is the [while] of [parse_expression],
    [comma_separated] the [while True] loop that [CallParselet.parse] and
    [parse_fn_statement] share: expressions separated by commas. *)
Fixpoint parse_expression (fuel : nat) (desired_precedence : Z)
    : Parser Expression :=
  match fuel with
  | O => out_of_fuel
  | S fuel' =>
      token <~ consume None ;;
      match prefix_parselets token.(Parsing.kind) with
      | None => raise AssertionError
      | Some prefix_parselet =>
          left <~ PrefixParselet_parse prefix_parselet token ;;
          infix_loop fuel' desired_precedence left
      end
  end
with infix_loop (fuel : nat) (desired_precedence : Z) (left : Expression)
    : Parser Expression :=
  match fuel with
  | O => out_of_fuel
  | S fuel' =>
      p <~ next_token_precedence ;;
      if desired_precedence <? p then
        token <~ consume None ;;
        match infix_parselets token.(Parsing.kind) with
        | None => raise AssertionError
        | Some infix_parselet =>
            left' <~ InfixParselet_parse fuel' infix_parselet left token ;;
            infix_loop fuel' desired_precedence left'
        end
      else ret left
  end
with InfixParselet_parse (fuel : nat) (p : InfixParselet)
    (left : Expression) (token : Token) : Parser Expression :=
  match fuel with
  | O => out_of_fuel
  | S fuel' =>
      match p with
      | BinaryOperatorParselet =>
          match precedence token.(Parsing.kind) with
          | None => raise KeyError
          | Some q =>
              right <~ parse_expression fuel' q ;;
              binary_node token left right
          end
      | CallParselet =>
          closed <~ match_ [TokenKind.RPAREN] ;;
          if closed then ret (CallExpression left [])
          else
            args <~ comma_separated fuel' [] ;;
            consume (Some TokenKind.RPAREN) ;;;
            ret (CallExpression left args)
      end
  end
with comma_separated (fuel : nat) (args : list Expression)
    : Parser (list Expression) :=
  match fuel with
  | O => out_of_fuel
  | S fuel' =>
      arg <~ parse_expression fuel' 0 ;;
      more <~ match_ [TokenKind.COMMA] ;;
      if more then comma_separated fuel' (args ++ [arg])%list
      else ret (args ++ [arg])%list
  end.

Definition expression_then_semicolon (fuel : nat) : Parser Expression :=
  expr <~ parse_expression fuel 0 ;;
  consume (Some TokenKind.SEMICOLON) ;;;
  ret expr.

Definition parse_print_statement (fuel : nat) : Parser Statement :=
  expr <~ expression_then_semicolon fuel ;; ret (PrintStatement expr).

Definition parse_let_statement (fuel : nat) : Parser Statement :=
  expr <~ expression_then_semicolon fuel ;; ret (LetStatement expr).

Definition parse_return_statement (fuel : nat) : Parser Statement :=
  expr <~ expression_then_semicolon fuel ;; ret (ReturnStatement expr).

Definition parse_expression_statement (fuel : nat) : Parser Statement :=
  expr <~ expression_then_semicolon fuel ;; ret (ExpressionStatement expr).

(** Statements.  [statements_until_rbrace] is the loop of
    [parse_block_statement]. *)
Fixpoint parse_statement (fuel : nat) : Parser Statement :=
  match fuel with
  | O => out_of_fuel
  | S fuel' =>
      is_let <~ match_ [TokenKind.LET] ;;
      if is_let then parse_let_statement fuel' else
      is_print <~ match_ [TokenKind.PRINT] ;;
      if is_print then parse_print_statement fuel' else
      is_fn <~ match_ [TokenKind.FN] ;;
      if is_fn then
        (* parse_fn_statement *)
        name <~ consume (Some TokenKind.IDENTIFIER) ;;
        consume (Some TokenKind.LPAREN) ;;;
        closed <~ match_ [TokenKind.RPAREN] ;;
        arguments <~ (if closed then ret []
                      else
                        arguments <~ comma_separated fuel' [] ;;
                        consume (Some TokenKind.RPAREN) ;;;
                        ret arguments) ;;
        body <~ parse_statement fuel' ;;
        ret (FnStatement name.(Parsing.value) arguments body)
      else
      is_while <~ match_ [TokenKind.WHILE] ;;
      if is_while then
        (* parse_while_statement *)
        consume (Some TokenKind.LPAREN) ;;;
        condition <~ parse_expression fuel' 0 ;;
        consume (Some TokenKind.RPAREN) ;;;
        body <~ parse_statement fuel' ;;
        ret (WhileStatement condition body)
      else
      is_for <~ match_ [TokenKind.FOR] ;;
      if is_for then
        (* parse_for_statement *)
        consume (Some TokenKind.LPAREN) ;;;
        consume (Some TokenKind.LET) ;;;
        initializer <~ parse_expression fuel' 0 ;;
        consume (Some TokenKind.SEMICOLON) ;;;
        condition <~ parse_expression fuel' 0 ;;
        consume (Some TokenKind.SEMICOLON) ;;;
        advancement <~ parse_expression fuel' 0 ;;
        consume (Some TokenKind.RPAREN) ;;;
        body <~ parse_statement fuel' ;;
        ret (ForStatement initializer condition advancement body)
      else
      is_if <~ match_ [TokenKind.IF] ;;
      if is_if then
        (* parse_if_statement *)
        consume (Some TokenKind.LPAREN) ;;;
        condition <~ parse_expression fuel' 0 ;;
        consume (Some TokenKind.RPAREN) ;;;
        then_branch <~ parse_statement fuel' ;;
        has_else <~ match_ [TokenKind.ELSE] ;;
        else_branch <~ (if has_else
                        then (s <~ parse_statement fuel' ;; ret (Some s))
                        else ret None) ;;
        ret (IfStatement condition then_branch else_branch)
      else
      is_return <~ match_ [TokenKind.RETURN] ;;
      if is_return then parse_return_statement fuel' else
      is_block <~ match_ [TokenKind.LBRACE] ;;
      if is_block then
        (* parse_block_statement *)
        body <~ statements_until_rbrace fuel' [] ;;
        ret (BlockStatement body)
      else parse_expression_statement fuel'
  end
with statements_until_rbrace (fuel : nat) (body : list Statement)
    : Parser (list Statement) :=
  match fuel with
  | O => out_of_fuel
  | S fuel' =>
      closed <~ match_ [TokenKind.RBRACE] ;;
      if closed then ret body
      else
        s <~ parse_statement fuel' ;;
        statements_until_rbrace fuel' (body ++ [s])%list
  end.

(** [Parser.parse]: statements up to the [EOF] token. *)
Fixpoint parse_loop (fuel : nat) (ast : list Statement)
    : Parser (list Statement) :=
  match fuel with
  | O => out_of_fuel
  | S fuel' =>
      at_eof <~ check TokenKind.EOF ;;
      if at_eof then ret ast
      else
        s <~ parse_statement fuel' ;;
        parse_loop fuel' (ast ++ [s])%list
  end.
End ParserLoops.

Definition parse (fuel : nat) (tokens : list Token) : result (list Statement) :=
  '(ast, _) ← parse_loop fuel [] tokens; Ok ast.

End Parsing.

(** ** Runtime state, [interpreter.py]

    [globals] and [locals] are two distinct dictionaries; [locals] is
    replaced as a whole around a call and [globals] never is.  [stdout]
    collects the values given to [print]. *)

Record Interpreter := mkInterpreter {
  globals : gmap string Py.value;
  locals : gmap string Py.value;
  functions : gmap string Statement;
  depth : Z;
  stdout : list Py.value
}.

Definition set_globals (g : gmap string Py.value) (self : Interpreter) :=
  mkInterpreter g self.(locals) self.(functions) self.(depth) self.(stdout).

Definition set_locals (l : gmap string Py.value) (self : Interpreter) :=
  mkInterpreter self.(globals) l self.(functions) self.(depth) self.(stdout).

Definition set_functions (f : gmap string Statement) (self : Interpreter) :=
  mkInterpreter self.(globals) self.(locals) f self.(depth) self.(stdout).

Definition set_depth (d : Z) (self : Interpreter) :=
  mkInterpreter self.(globals) self.(locals) self.(functions) d self.(stdout).

Definition print (v : Py.value) (self : Interpreter) : Interpreter :=
  mkInterpreter self.(globals) self.(locals) self.(functions) self.(depth)
    (self.(stdout) ++ [v])%list.

Definition is_local (self : Interpreter) (name : string) : bool :=
  bool_decide (is_Some (self.(locals) !! name)).

Definition is_global (self : Interpreter) (name : string) : bool :=
  bool_decide (is_Some (self.(globals) !! name)).

Definition resolve (self : Interpreter) (name : string) : result Py.value :=
  if is_local self name then
    match self.(locals) !! name with Some v => Ok v | None => Raise KeyError end
  else if is_global self name then
    match self.(globals) !! name with Some v => Ok v | None => Raise KeyError end
  else Raise (NotDefined name).

(** [store]: the write [d[name] = v] of [AssignExpression.eval], where
    [nested] is its test [interpreter.depth > 0], made before the
    right-hand side is evaluated.  [del]: the [del d[name]] of
    [ForStatement.exec], on the dictionary that the depth selects. *)
Definition store (nested : bool) (name : string) (v : Py.value)
    (self : Interpreter) : Interpreter :=
  if nested
  then set_locals (<[name := v]> self.(locals)) self
  else set_globals (<[name := v]> self.(globals)) self.

Definition del (name : string) (self : Interpreter) : result Interpreter :=
  if 0 <? self.(depth) then
    match self.(locals) !! name with
    | Some _ => Ok (set_locals (delete name self.(locals)) self)
    | None => Raise KeyError
    end
  else
    match self.(globals) !! name with
    | Some _ => Ok (set_globals (delete name self.(globals)) self)
    | None => Raise KeyError
    end.

(** [arg.name]: only a variable node has a [name]. *)
Definition arg_name (arg : Expression) : result string :=
  match arg with
  | VariableExpression name => Ok name
  | _ => Raise AttributeError
  end.

(** [[arg.name for arg in arguments]] *)
Fixpoint argument_names (arguments : list Expression) : result (list string) :=
  match arguments with
  | [] => Ok []
  | x :: xs => n ← arg_name x; ns ← argument_names xs; Ok (n :: ns)
  end.

Definition binary_operator (k : BinaryExpressionKind.t)
    : option (Py.value -> Py.value -> result Py.value) :=
  match k with
  | BinaryExpressionKind.ADD => Some Py.add
  | BinaryExpressionKind.SUB => Some Py.sub
  | BinaryExpressionKind.MUL => Some Py.mul
  | BinaryExpressionKind.DIV => Some Py.div
  | BinaryExpressionKind.LT => Some Py.lt
  | BinaryExpressionKind.ASSIGN => None
  end.

(** The [eval] methods of the expression classes ([Expression_eval]), the
    [exec] methods of the statement classes ([Statement_exec]) and
    [Interpreter._exec]; [comprehension] is the dictionary comprehension of
    [CallExpression.eval], [while_loop] and [for_loop] the loops of
    [WhileStatement.exec] and [ForStatement.exec].  Every call spends one
    unit of [fuel].

    In [CallExpression.eval], [old_locals] is a reference to the caller's
    dictionary, taken before the arguments are evaluated; an assignment
    among the arguments writes into that same dictionary, and the body,
    which runs on a new one, cannot reach it.  What the call puts back is
    therefore the caller's dictionary as the arguments left it. *)
Fixpoint Expression_eval (fuel : nat) (e : Expression) (self : Interpreter)
    : result (Py.value * Interpreter) :=
  match fuel with
  | O => OutOfFuel
  | S fuel' =>
      match e with
      | CallExpression callee args =>
          match callee with
          | VariableExpression name =>
              match self.(functions) !! name with
              | None => Raise KeyError
              | Some (FnStatement _ arguments body) =>
                  names ← argument_names arguments;
                  '(new_locals, self) ←
                    comprehension fuel' (zip names args) ∅ self;
                  let old_locals := self.(locals) in
                  '(retval, self) ←
                    Statement_exec fuel' body (set_locals new_locals self);
                  Ok (retval, set_locals old_locals self)
              | Some _ => Raise AttributeError
              end
          | _ => Raise AssertionError
          end
      | LiteralExpression f => Ok (VFloat f, self)
      | VariableExpression name =>
          v ← resolve self name; Ok (v, self)
      | BinaryExpression k lhs rhs =>
          match binary_operator k with
          | Some op =>
              '(a, self) ← Expression_eval fuel' lhs self;
              '(b, self) ← Expression_eval fuel' rhs self;
              r ← op a b;
              Ok (r, self)
          | None => Ok (VNone, self)
          end
      | AssignExpression lhs rhs =>
          match lhs with
          | VariableExpression name =>
              let nested := 0 <? self.(depth) in
              '(v, self) ← Expression_eval fuel' rhs self;
              Ok (VNone, store nested name v self)
          | _ => Raise AssertionError
          end
      end
  end
with comprehension (fuel : nat) (items : list (string * Expression))
    (d : gmap string Py.value) (self : Interpreter)
    : result (gmap string Py.value * Interpreter) :=
  match fuel with
  | O => OutOfFuel
  | S fuel' =>
      match items with
      | [] => Ok (d, self)
      | (k, v) :: items' =>
          '(x, self) ← Expression_eval fuel' v self;
          comprehension fuel' items' (<[k := x]> d) self
      end
  end
with Statement_exec (fuel : nat) (s : Statement) (self : Interpreter)
    : result (Py.value * Interpreter) :=
  match fuel with
  | O => OutOfFuel
  | S fuel' =>
      match s with
      | LetStatement initializer =>
          '(_, self) ← Expression_eval fuel' initializer self;
          Ok (VNone, self)
      | PrintStatement e =>
          '(expr, self) ← Expression_eval fuel' e self;
          Ok (VNone, print expr self)
      | IfStatement condition then_branch else_branch =>
          '(c, self) ← Expression_eval fuel' condition self;
          if truthy c then Statement_exec fuel' then_branch self
          else
            match else_branch with
            | Some else_branch => Statement_exec fuel' else_branch self
            | None => Ok (VNone, self)
            end
      | FnStatement name _ _ =>
          Ok (VNone, set_functions (<[name := s]> self.(functions)) self)
      | BlockStatement body =>
          '(retval, self) ←
            _exec fuel' body (set_depth (self.(depth) + 1) self);
          Ok (retval, set_depth (self.(depth) - 1) self)
      | ReturnStatement e => Expression_eval fuel' e self
      | WhileStatement condition body =>
          self ← while_loop fuel' condition body self;
          Ok (VNone, self)
      | ForStatement initializer condition advancement body =>
          match initializer with
          | AssignExpression (VariableExpression name) _ =>
              '(_, self) ← Expression_eval fuel' initializer self;
              self ← for_loop fuel' condition body advancement self;
              self ← del name self;
              Ok (VNone, self)
          | _ => Raise AssertionError
          end
      | ExpressionStatement e =>
          '(_, self) ← Expression_eval fuel' e self;
          Ok (VNone, self)
      end
  end
with _exec (fuel : nat) (ast : list Statement) (self : Interpreter)
    : result (Py.value * Interpreter) :=
  match fuel with
  | O => OutOfFuel
  | S fuel' =>
      match ast with
      | [] => Ok (VNone, self)
      | stmt :: rest =>
          '(retval, self) ← Statement_exec fuel' stmt self;
          if is_None retval then _exec fuel' rest self
          else Ok (retval, self)
      end
  end
with while_loop (fuel : nat) (condition : Expression) (body : Statement)
    (self : Interpreter) : result Interpreter :=
  match fuel with
  | O => OutOfFuel
  | S fuel' =>
      '(c, self) ← Expression_eval fuel' condition self;
      if truthy c then
        '(_, self) ← Statement_exec fuel' body self;
        while_loop fuel' condition body self
      else Ok self
  end
with for_loop (fuel : nat) (condition : Expression) (body : Statement)
    (advancement : Expression) (self : Interpreter) : result Interpreter :=
  match fuel with
  | O => OutOfFuel
  | S fuel' =>
      '(c, self) ← Expression_eval fuel' condition self;
      if truthy c then
        '(_, self) ← Statement_exec fuel' body self;
        '(_, self) ← Expression_eval fuel' advancement self;
        for_loop fuel' condition body advancement self
      else Ok self
  end.

End Viper.

(* ===================================================================== *)
(** * Vocabulary of the properties                                        *)
(* ===================================================================== *)

Section FuelOrder.

(** [mono r r']: once [r] is a value or an exception, [r'] is the same. *)
Definition mono {A} (r r' : result A) : Prop := r <> OutOfFuel -> r' = r.

End FuelOrder.

Section SpamVocabulary.
Import Spam.

Definition pmono {A} (p p' : Parser A) : Prop :=
  forall tokens, mono (p tokens) (p' tokens).

Definition interp_mono (n m : nat) : Prop :=
  (forall v self, mono (exec_stmt n v self) (exec_stmt m v self))
  /\ (forall ast self, mono (exec n ast self) (exec m ast self))
  /\ (forall e self, mono (_eval n e self) (_eval m e self))
  /\ (forall items d self,
        mono (comprehension n items d self) (comprehension m items d self)).

Definition expression_mono (n m : nat) : Prop :=
  (forall q, pmono (parse_expression n q) (parse_expression m q))
  /\ (forall q left, pmono (infix_loop n q left) (infix_loop m q left))
  /\ (forall p left token,
        pmono (InfixParselet_parse n p left token)
              (InfixParselet_parse m p left token))
  /\ (forall args, pmono (call_args n args) (call_args m args)).

Definition statement_mono (n m : nat) : Prop :=
  pmono (parse_statement n) (parse_statement m)
  /\ (forall body,
        pmono (statements_until_rbrace n body)
              (statements_until_rbrace m body)).

(** Shorthand for the trees the parser builds. *)
Definition literal (z : Z) : Expression :=
  mkExpression ExpressionKind.LITERAL (LiteralExpression (float_of_Z z)).

Definition variable (name : string) : Expression :=
  mkExpression ExpressionKind.VARIABLE (VariableExpression name).

Definition binary (k : BinaryExpressionKind.t) (lhs rhs : Expression) :=
  mkExpression ExpressionKind.BINARY (BinaryExpression k lhs rhs).

Definition assign (lhs rhs : Expression) : Expression :=
  mkExpression ExpressionKind.ASSIGN
    (BinaryExpression BinaryExpressionKind.ASSIGN lhs rhs).

End SpamVocabulary.

Section ViperVocabulary.
Import Viper.

Definition viper_mono (n m : nat) : Prop :=
  (forall e self, mono (Expression_eval n e self) (Expression_eval m e self))
  /\ (forall items d self,
        mono (comprehension n items d self) (comprehension m items d self))
  /\ (forall s self, mono (Statement_exec n s self) (Statement_exec m s self))
  /\ (forall ast self, mono (_exec n ast self) (_exec m ast self))
  /\ (forall c b self, mono (while_loop n c b self) (while_loop m c b self))
  /\ (forall c b a self,
        mono (for_loop n c b a self) (for_loop m c b a self)).

(** What a finished run may have done to the state it started in: the
    depth is back where it was, and below the top level the globals are
    untouched. *)
Definition frame (self self' : Interpreter) : Prop :=
  depth self' = depth self
  /\ (0 < depth self -> globals self' = globals self).

Definition viper_frame (n : nat) : Prop :=
  (forall e self v self',
      Expression_eval n e self = Ok (v, self') -> frame self self')
  /\ (forall items d self d' self',
        comprehension n items d self = Ok (d', self') -> frame self self')
  /\ (forall s self v self',
        Statement_exec n s self = Ok (v, self') -> frame self self')
  /\ (forall ast self v self',
        _exec n ast self = Ok (v, self') -> frame self self')
  /\ (forall c b self self',
        while_loop n c b self = Ok self' -> frame self self')
  /\ (forall c b a self self',
        for_loop n c b a self = Ok self' -> frame self self').

(** [{ x = rhs; }]: a block around one assignment. *)
Definition assign_block (x : string) (rhs : Expression) : Statement :=
  BlockStatement
    [ExpressionStatement (AssignExpression (VariableExpression x) rhs)].

(** [while (x < 1) { x = 1; return 5; }]: a loop whose body returns. *)
Definition returning_loop : Statement :=
  WhileStatement
    (BinaryExpression BinaryExpressionKind.LT
       (VariableExpression "x") (LiteralExpression (float_of_Z 1)))
    (BlockStatement
       [ExpressionStatement
          (AssignExpression (VariableExpression "x")
             (LiteralExpression (float_of_Z 1)));
        ReturnStatement (LiteralExpression (float_of_Z 5))]).

Definition lit (z : Z) : Expression := LiteralExpression (float_of_Z z).

(** The parts of [for (let i = 0; i < 3; i = i + 1) { print i; }] and the
    statement itself. *)
Definition i_below_3 : Expression :=
  BinaryExpression BinaryExpressionKind.LT (VariableExpression "i") (lit 3).

Definition i_plus_1 : Expression :=
  AssignExpression (VariableExpression "i")
    (BinaryExpression BinaryExpressionKind.ADD (VariableExpression "i") (lit 1)).

Definition print_i : Statement :=
  BlockStatement [PrintStatement (VariableExpression "i")].

Definition counting_loop : Statement :=
  ForStatement (AssignExpression (VariableExpression "i") (lit 0))
    i_below_3 i_plus_1 print_i.

(** [fn f() { print x; }  x = 1;  { x = 2; }  print x;  f();  print x;] *)
Definition shadow_demo : list Statement :=
  let x := VariableExpression "x" in
  let num z := LiteralExpression (float_of_Z z) in
  [ FnStatement "f" [] (BlockStatement [PrintStatement x]);
    ExpressionStatement (AssignExpression x (num 1));
    BlockStatement [ExpressionStatement (AssignExpression x (num 2))];
    PrintStatement x;
    ExpressionStatement (CallExpression (VariableExpression "f") []);
    PrintStatement x ].

End ViperVocabulary.

Section ArithmeticVocabulary.

(** Expressions built from numeric literals with [+ - * / <]. *)
Inductive operator := Plus | Minus | Star | Slash | Less.

Inductive arithmetic :=
  | Number (f : float)
  | Operation (op : operator) (lhs rhs : arithmetic).

Definition operator_kind (op : operator) : Spam.BinaryExpressionKind.t :=
  match op with
  | Plus => Spam.BinaryExpressionKind.ADD
  | Minus => Spam.BinaryExpressionKind.SUB
  | Star => Spam.BinaryExpressionKind.MUL
  | Slash => Spam.BinaryExpressionKind.DIV
  | Less => Spam.BinaryExpressionKind.LT
  end.

Definition operator_kind' (op : operator) : Viper.BinaryExpressionKind.t :=
  match op with
  | Plus => Viper.BinaryExpressionKind.ADD
  | Minus => Viper.BinaryExpressionKind.SUB
  | Star => Viper.BinaryExpressionKind.MUL
  | Slash => Viper.BinaryExpressionKind.DIV
  | Less => Viper.BinaryExpressionKind.LT
  end.

(** The tree of the prototype and the tree of the extended
    implementation for the same expression, as their parsers build them. *)
Fixpoint prototype_tree (a : arithmetic) : Spam.Expression :=
  match a with
  | Number f =>
      Spam.mkExpression Spam.ExpressionKind.LITERAL (Spam.LiteralExpression f)
  | Operation op lhs rhs =>
      Spam.mkExpression Spam.ExpressionKind.BINARY
        (Spam.BinaryExpression (operator_kind op)
           (prototype_tree lhs) (prototype_tree rhs))
  end.

Fixpoint extended_tree (a : arithmetic) : Viper.Expression :=
  match a with
  | Number f => Viper.LiteralExpression f
  | Operation op lhs rhs =>
      Viper.BinaryExpression (operator_kind' op)
        (extended_tree lhs) (extended_tree rhs)
  end.

Definition apply_operator (op : operator)
    : Py.value -> Py.value -> result Py.value :=
  match op with
  | Plus => Py.add
  | Minus => Py.sub
  | Star => Py.mul
  | Slash => Py.div
  | Less => Py.lt
  end.

(** The value of an expression: left operand, right operand, operator. *)
Fixpoint denote (a : arithmetic) : result Py.value :=
  match a with
  | Number f => Ok (VFloat f)
  | Operation op lhs rhs =>
      x ← denote lhs; y ← denote rhs; apply_operator op x y
  end.

Fixpoint height (a : arithmetic) : nat :=
  match a with
  | Number _ => 0
  | Operation _ lhs rhs => S (Nat.max (height lhs) (height rhs))
  end.

(** What an evaluation produced, without the interpreter it ran in. *)
Definition produced {S} (r : result (Py.value * S)) : result Py.value :=
  '(v, _) ← r; Ok v.

(** [(1 + 2 * 3) < 10 / 4] *)
Definition sample : arithmetic :=
  Operation Less
    (Operation Plus (Number (float_of_Z 1))
       (Operation Star (Number (float_of_Z 2)) (Number (float_of_Z 3))))
    (Operation Slash (Number (float_of_Z 10)) (Number (float_of_Z 4))).

End ArithmeticVocabulary.

(** ** Vocabulary of the further properties *)

Section TokenizerVocabulary.
Import Spam.

Definition keywords : list (string * TokenKind.t) :=
  [("if", TokenKind.IF); ("fn", TokenKind.FN); ("else", TokenKind.ELSE);
   ("let", TokenKind.LET); ("print", TokenKind.PRINT);
   ("return", TokenKind.RETURN)].

Definition not_eof (t : Token) : Prop := kind t <> TokenKind.EOF.

(** A letter that starts no keyword. *)
Definition plain_letter (c : ascii) : bool :=
  isalpha c
  && negb (existsb (Ascii.eqb c) (list_ascii_of_string "ifelpr")).

End TokenizerVocabulary.

Section PrototypeRunVocabulary.
Import Spam.

(** What a finished run of the prototype may have done to its
    interpreter: the scope is the same, output was only added at the end,
    and no function was forgotten. *)
Definition extends (self self' : Interpreter) : Prop :=
  locals self' = locals self
  /\ (exists more, stdout self' = (stdout self ++ more)%list)
  /\ dom (functions self) ⊆ dom (functions self').

Definition spam_extends (n : nat) : Prop :=
  (forall v self r self',
      exec_stmt n v self = Ok (r, self') -> extends self self')
  /\ (forall ast self r self',
        exec n ast self = Ok (r, self') -> extends self self')
  /\ (forall e self r self',
        _eval n e self = Ok (r, self') -> extends self self')
  /\ (forall items d self d' self',
        comprehension n items d self = Ok (d', self') -> extends self self').

End PrototypeRunVocabulary.

Section ExtendedRunVocabulary.
Import Viper.

Definition grows (self self' : Interpreter) : Prop :=
  (exists more, stdout self' = (stdout self ++ more)%list)
  /\ dom (functions self) ⊆ dom (functions self').

Definition viper_grows (n : nat) : Prop :=
  (forall e self v self',
      Expression_eval n e self = Ok (v, self') -> grows self self')
  /\ (forall items d self d' self',
        comprehension n items d self = Ok (d', self') -> grows self self')
  /\ (forall s self v self',
        Statement_exec n s self = Ok (v, self') -> grows self self')
  /\ (forall ast self v self',
        _exec n ast self = Ok (v, self') -> grows self self')
  /\ (forall c b self self',
        while_loop n c b self = Ok self' -> grows self self')
  /\ (forall c b a self self',
        for_loop n c b a self = Ok self' -> grows self self').

End ExtendedRunVocabulary.

Section CallVocabulary.

(** Expressions without assignment or call. *)
Fixpoint pure (e : Viper.Expression) : bool :=
  match e with
  | Viper.LiteralExpression _ | Viper.VariableExpression _ => true
  | Viper.BinaryExpression _ lhs rhs => pure lhs && pure rhs
  | _ => false
  end.

End CallVocabulary.

Section ParserVocabulary.
Import Spam.

(** A parser only takes tokens from the front: what it leaves is a suffix
    of what it was given ([keeps_order]); [consumes] adds that at least one
    token was taken. *)
Definition keeps_order {A} (p : Parser A) : Prop :=
  forall tokens a rest, p tokens = Ok (a, rest) -> rest `suffix_of` tokens.

Definition consumes {A} (p : Parser A) : Prop :=
  forall tokens a rest,
    p tokens = Ok (a, rest) ->
    rest `suffix_of` tokens /\ (length rest < length tokens)%nat.

Definition expression_progress (n : nat) : Prop :=
  (forall q, consumes (parse_expression n q))
  /\ (forall q left, keeps_order (infix_loop n q left))
  /\ (forall p left token, keeps_order (InfixParselet_parse n p left token))
  /\ (forall args, consumes (call_args n args)).

Definition statement_progress (n : nat) : Prop :=
  consumes (parse_statement n)
  /\ (forall body, keeps_order (statements_until_rbrace n body)).

(** The six binary operator tokens with the node each builds. *)
Definition operators
    : list (Token * (Expression -> Expression -> Expression)) :=
  [(mkToken TokenKind.PLUS "+", binary BinaryExpressionKind.ADD);
   (mkToken TokenKind.MINUS "-", binary BinaryExpressionKind.SUB);
   (mkToken TokenKind.STAR "*", binary BinaryExpressionKind.MUL);
   (mkToken TokenKind.SLASH "/", binary BinaryExpressionKind.DIV);
   (mkToken TokenKind.LT "<", binary BinaryExpressionKind.LT);
   (mkToken TokenKind.EQUAL "=", assign)].

Definition name_token (x : string) : Token :=
  mkToken TokenKind.IDENTIFIER x.

(** [op x1 op x2 ... op xn] *)
Definition chain (op : Token) (xs : list string) : list Token :=
  flat_map (fun x => [op; name_token x]) xs.

(** [((x0 op x1) op x2) ... op xn] *)
Definition left_nested (node : Expression -> Expression -> Expression)
    (x0 : string) (xs : list string) : Expression :=
  fold_left (fun acc x => node acc (variable x)) xs (variable x0).

(** What the proofs need to know of an operator. *)
Definition binds (op : Token) (q : Z)
    (node : Expression -> Expression -> Expression) : Prop :=
  precedence (kind op) = Some q
  /\ 0 < q
  /\ infix_parselets (kind op) = Some BinaryOperatorParselet
  /\ forall left right tokens,
       binary_node op left right tokens = Ok (node left right, tokens).

(** The tokens of [name();] and of [name());]. *)
Definition empty_call (name : string) (closings : nat) : list Spam.Token :=
  [Spam.mkToken Spam.TokenKind.IDENTIFIER name;
   Spam.mkToken Spam.TokenKind.LPAREN "("]
  ++ replicate closings (Spam.mkToken Spam.TokenKind.RPAREN ")")
  ++ [Spam.mkToken Spam.TokenKind.SEMICOLON ";";
      Spam.mkToken Spam.TokenKind.EOF ""].

End ParserVocabulary.

Section AgreementVocabulary.
Import Viper.Parsing.

Definition up_kind (k : Spam.TokenKind.t) : TokenKind.t :=
  match k with
  | Spam.TokenKind.PRINT => TokenKind.PRINT
  | Spam.TokenKind.LET => TokenKind.LET
  | Spam.TokenKind.NUMBER => TokenKind.NUMBER
  | Spam.TokenKind.PLUS => TokenKind.PLUS
  | Spam.TokenKind.MINUS => TokenKind.MINUS
  | Spam.TokenKind.STAR => TokenKind.STAR
  | Spam.TokenKind.SLASH => TokenKind.SLASH
  | Spam.TokenKind.EQUAL => TokenKind.EQUAL
  | Spam.TokenKind.LPAREN => TokenKind.LPAREN
  | Spam.TokenKind.RPAREN => TokenKind.RPAREN
  | Spam.TokenKind.LBRACE => TokenKind.LBRACE
  | Spam.TokenKind.RBRACE => TokenKind.RBRACE
  | Spam.TokenKind.IF => TokenKind.IF
  | Spam.TokenKind.ELSE => TokenKind.ELSE
  | Spam.TokenKind.FN => TokenKind.FN
  | Spam.TokenKind.RETURN => TokenKind.RETURN
  | Spam.TokenKind.LT => TokenKind.LT
  | Spam.TokenKind.COMMA => TokenKind.COMMA
  | Spam.TokenKind.SEMICOLON => TokenKind.SEMICOLON
  | Spam.TokenKind.IDENTIFIER => TokenKind.IDENTIFIER
  | Spam.TokenKind.EOF => TokenKind.EOF
  end.

(** A token of the prototype as a token of the extended implementation. *)
Definition up (t : Spam.Token) : Token :=
  mkToken (up_kind (Spam.kind t)) (Spam.value t).

(** The tree of the extended implementation for a tree of the prototype:
    the payload decides, and an [ASSIGN] payload becomes an assignment
    node. *)
Fixpoint extended (e : Spam.Expression) : Viper.Expression :=
  match e with
  | Spam.mkExpression _ payload => extended_value payload
  end
with extended_value (payload : Spam.ExpressionValue) : Viper.Expression :=
  match payload with
  | Spam.CallExpression callee args =>
      Viper.CallExpression (extended callee) (map extended args)
  | Spam.LiteralExpression f => Viper.LiteralExpression f
  | Spam.VariableExpression name => Viper.VariableExpression name
  | Spam.BinaryExpression k lhs rhs =>
      match k with
      | Spam.BinaryExpressionKind.ADD =>
          Viper.BinaryExpression Viper.BinaryExpressionKind.ADD
            (extended lhs) (extended rhs)
      | Spam.BinaryExpressionKind.SUB =>
          Viper.BinaryExpression Viper.BinaryExpressionKind.SUB
            (extended lhs) (extended rhs)
      | Spam.BinaryExpressionKind.MUL =>
          Viper.BinaryExpression Viper.BinaryExpressionKind.MUL
            (extended lhs) (extended rhs)
      | Spam.BinaryExpressionKind.DIV =>
          Viper.BinaryExpression Viper.BinaryExpressionKind.DIV
            (extended lhs) (extended rhs)
      | Spam.BinaryExpressionKind.LT =>
          Viper.BinaryExpression Viper.BinaryExpressionKind.LT
            (extended lhs) (extended rhs)
      | Spam.BinaryExpressionKind.ASSIGN =>
          Viper.AssignExpression (extended lhs) (extended rhs)
      end
  end.

Definition carried {A B} (f : A -> B)
    (r : result (A * list Spam.Token)) : result (B * list Token) :=
  match r with
  | Ok (a, rest) => Ok (f a, map up rest)
  | Raise e => Raise e
  | OutOfFuel => OutOfFuel
  end.

Definition no_paren (t : Spam.Token) : Prop :=
  Spam.kind t <> Spam.TokenKind.LPAREN.

Definition parsers_agree (n : nat) : Prop :=
  (forall q tokens,
      Forall no_paren tokens ->
      parse_expression n q (map up tokens)
      = carried extended (Spam.parse_expression n q tokens))
  /\ (forall q left tokens,
        Forall no_paren tokens ->
        infix_loop n q (extended left) (map up tokens)
        = carried extended (Spam.infix_loop n q left tokens))
  /\ (forall left token tokens,
        Forall no_paren tokens ->
        InfixParselet_parse n BinaryOperatorParselet
          (extended left) (up token) (map up tokens)
        = carried extended
            (Spam.InfixParselet_parse n Spam.BinaryOperatorParselet
               left token tokens)).

Definition vmono {A} (p p' : Parser A) : Prop :=
  forall tokens, mono (p tokens) (p' tokens).

Definition extended_expression_mono (n m : nat) : Prop :=
  (forall q, vmono (parse_expression n q) (parse_expression m q))
  /\ (forall q left, vmono (infix_loop n q left) (infix_loop m q left))
  /\ (forall p left token,
        vmono (InfixParselet_parse n p left token)
              (InfixParselet_parse m p left token))
  /\ (forall args, vmono (comma_separated n args) (comma_separated m args)).

Definition extended_statement_mono (n m : nat) : Prop :=
  vmono (parse_statement n) (parse_statement m)
  /\ (forall body,
        vmono (statements_until_rbrace n body)
              (statements_until_rbrace m body)).

(** The tokens of [a = b = c;]. *)
Definition chained_assignment (a b c : string) : list Viper.Parsing.Token :=
  let name x := Viper.Parsing.mkToken Viper.Parsing.TokenKind.IDENTIFIER x in
  let equal := Viper.Parsing.mkToken Viper.Parsing.TokenKind.EQUAL "=" in
  [name a; equal; name b; equal; name c;
   Viper.Parsing.mkToken Viper.Parsing.TokenKind.SEMICOLON ";";
   Viper.Parsing.mkToken Viper.Parsing.TokenKind.EOF ""].

End AgreementVocabulary.

(* ===================================================================== *)
(** * Fuel: a larger budget never changes a finished run                  *)
(* ===================================================================== *)

Section Fuel.

Lemma mono_refl {A} (r : result A) : mono r r.
Proof. intros _; reflexivity. Qed.

Lemma mono_out {A} (r : result A) : mono OutOfFuel r.
Proof. intros H; congruence. Qed.

Lemma mono_bind {A B} (m m' : result A) (k k' : A -> result B) :
  mono m m' -> (forall a, mono (k a) (k' a)) -> mono (m ≫= k) (m' ≫= k').
Proof.
  intros Hm Hk. destruct m as [a| e |]; cbn.
  - rewrite Hm by discriminate. cbn. apply Hk.
  - rewrite Hm by discriminate. intros _. reflexivity.
  - apply mono_out.
Qed.

Lemma mono_ok {A} (r r' : result A) (a : A) : mono r r' -> r = Ok a -> r' = Ok a.
Proof. intros H E. rewrite <- E. apply H. rewrite E. discriminate. Qed.

Lemma mono_raise {A} (r r' : result A) e :
  mono r r' -> r = Raise e -> r' = Raise e.
Proof. intros H E. rewrite <- E. apply H. rewrite E. discriminate. Qed.

End Fuel.

Create HintDb fuel.
#[local] Hint Resolve mono_refl mono_out : fuel.

(** Splits a goal [mono (x ← m; k) (x ← m'; k')] and the case analyses
    around it, leaving the recursive calls to the hypotheses. *)
Ltac mono_step :=
  repeat first
    [ apply mono_refl
    | apply mono_out
    | progress auto with fuel
    | apply mono_bind; [ | intros ? ]
    | match goal with
      | |- mono (let '(_, _) := ?p in _) _ => destruct p
      | |- mono (match ?x with _ => _ end) (match ?x with _ => _ end) =>
          destruct x
      | |- mono (if ?b then _ else _) (if ?b then _ else _) => destruct b
      end ].

Section SpamFuel.
Import Spam.

Lemma interp_mono_S n m : interp_mono n m -> interp_mono (S n) (S m).
Proof.
  intros (Hs & Hx & He & Hc). repeat split.
  - intros [k s] self; simpl. mono_step.
  - intros ast self; simpl. mono_step.
  - intros [k v] self; simpl. mono_step.
  - intros items d self; simpl. mono_step.
Qed.

Lemma interp_mono_le n : forall m, (n <= m)%nat -> interp_mono n m.
Proof.
  induction n as [|n IH]; intros m Hle.
  - repeat split; intros; apply mono_out.
  - destruct m as [|m]; [lia|]. apply interp_mono_S, IH. lia.
Qed.

Lemma exec_fuel_mono n m ast self r :
  (n <= m)%nat -> exec n ast self = Ok r -> exec m ast self = Ok r.
Proof.
  intros Hle. apply mono_ok. apply (interp_mono_le n m Hle).
Qed.

End SpamFuel.

Section SpamParserFuel.
Import Spam.

Lemma pmono_refl {A} (p : Parser A) : pmono p p.
Proof. intros tokens. apply mono_refl. Qed.

Lemma pmono_out {A} (p : Parser A) : pmono out_of_fuel p.
Proof. intros tokens. apply mono_out. Qed.

Lemma pmono_bind {A B} (m m' : Parser A) (k k' : A -> Parser B) :
  pmono m m' -> (forall a, pmono (k a) (k' a)) ->
  pmono (bind m k) (bind m' k').
Proof.
  intros Hm Hk tokens. unfold bind. specialize (Hm tokens).
  destruct (m tokens) as [[a rest]| e |].
  - rewrite Hm by discriminate. apply Hk.
  - rewrite Hm by discriminate. apply mono_refl.
  - apply mono_out.
Qed.

Ltac pmono_step :=
  repeat first
    [ apply pmono_refl
    | apply pmono_out
    | progress auto
    | apply pmono_bind; [ | intros ? ]
    | match goal with
      | |- pmono (match ?x with _ => _ end) (match ?x with _ => _ end) =>
          destruct x
      | |- pmono (if ?b then _ else _) (if ?b then _ else _) => destruct b
      end ].

Lemma expression_mono_S n m : expression_mono n m -> expression_mono (S n) (S m).
Proof.
  intros (He & Hi & Hp & Hc). repeat split.
  - intros q; simpl. pmono_step.
  - intros q left; simpl. pmono_step.
  - intros p left token; simpl. pmono_step.
  - intros args; simpl. pmono_step.
Qed.

Lemma expression_mono_le n : forall m, (n <= m)%nat -> expression_mono n m.
Proof.
  induction n as [|n IH]; intros m Hle.
  - repeat split; intros; apply pmono_out.
  - destruct m as [|m]; [lia|]. apply expression_mono_S, IH. lia.
Qed.

Lemma parse_expression_mono n m q :
  (n <= m)%nat -> pmono (parse_expression n q) (parse_expression m q).
Proof. intros Hle. apply (expression_mono_le n m Hle). Qed.

Lemma expression_then_semicolon_mono n m :
  (n <= m)%nat ->
  pmono (expression_then_semicolon n) (expression_then_semicolon m).
Proof.
  intros Hle. unfold expression_then_semicolon.
  apply pmono_bind; [ by apply parse_expression_mono | intros; apply pmono_refl ].
Qed.

Lemma fn_arguments_mono n : forall m args,
  (n <= m)%nat -> pmono (fn_arguments n args) (fn_arguments m args).
Proof.
  induction n as [|n IH]; intros m args Hle; [apply pmono_out|].
  destruct m as [|m]; [lia|]. simpl.
  apply pmono_bind; [apply pmono_refl|]. intros [|]; [apply pmono_refl|].
  apply pmono_bind; [apply parse_expression_mono; lia|].
  intros a. apply IH. lia.
Qed.

Lemma statement_mono_le n : forall m, (n <= m)%nat -> statement_mono n m.
Proof.
  induction n as [|n IH]; intros m Hle.
  - split; intros; apply pmono_out.
  - destruct m as [|m]; [lia|].
    destruct (IH m ltac:(lia)) as [Hs Hb].
    assert (Hx := expression_then_semicolon_mono n m ltac:(lia)).
    assert (He := fun q => parse_expression_mono n m q ltac:(lia)).
    assert (Ha := fun args => fn_arguments_mono n m args ltac:(lia)).
    split; [|intros body]; simpl;
      unfold parse_let_statement, parse_print_statement,
        parse_return_statement, parse_expression_statement;
      pmono_step.
Qed.

Lemma parse_loop_mono n : forall m ast,
  (n <= m)%nat -> pmono (parse_loop n ast) (parse_loop m ast).
Proof.
  induction n as [|n IH]; intros m ast Hle; [apply pmono_out|].
  destruct m as [|m]; [lia|]. simpl.
  apply pmono_bind; [apply pmono_refl|]. intros [|]; [apply pmono_refl|].
  apply pmono_bind; [apply (statement_mono_le n m); lia|].
  intros a. apply IH. lia.
Qed.

Lemma parse_fuel_mono n m tokens ast :
  (n <= m)%nat -> parse n tokens = Ok ast -> parse m tokens = Ok ast.
Proof.
  intros Hle. apply mono_ok. unfold parse.
  apply mono_bind; [ by apply parse_loop_mono | intros [? ?]; apply mono_refl ].
Qed.

End SpamParserFuel.

Section ViperFuel.
Import Viper.

Lemma viper_mono_S n m : viper_mono n m -> viper_mono (S n) (S m).
Proof.
  intros (He & Hc & Hs & Hx & Hw & Hf). repeat split.
  - intros e self; simpl. mono_step.
  - intros items d self; simpl. mono_step.
  - intros s self; simpl. mono_step.
  - intros ast self; simpl. mono_step.
  - intros c b self; simpl. mono_step.
  - intros c b a self; simpl. mono_step.
Qed.

Lemma viper_mono_le n : forall m, (n <= m)%nat -> viper_mono n m.
Proof.
  induction n as [|n IH]; intros m Hle.
  - repeat split; intros; apply mono_out.
  - destruct m as [|m]; [lia|]. apply viper_mono_S, IH. lia.
Qed.

Lemma Statement_exec_fuel_mono n m s self r :
  (n <= m)%nat ->
  Statement_exec n s self = Ok r -> Statement_exec m s self = Ok r.
Proof. intros Hle. apply mono_ok. apply (viper_mono_le n m Hle). Qed.

Lemma Expression_eval_fuel_mono n m e self r :
  (n <= m)%nat ->
  Expression_eval n e self = Ok r -> Expression_eval m e self = Ok r.
Proof. intros Hle. apply mono_ok. apply (viper_mono_le n m Hle). Qed.

Lemma _exec_fuel_mono n m ast self r :
  (n <= m)%nat -> _exec n ast self = Ok r -> _exec m ast self = Ok r.
Proof. intros Hle. apply mono_ok. apply (viper_mono_le n m Hle). Qed.

End ViperFuel.

(* ===================================================================== *)
(** * The prototype: tokenizer, parser, evaluator                         *)
(* ===================================================================== *)

Section SpamFacts.
Import Spam.

Lemma run_mono source n m : (n <= m)%nat -> mono (run source n) (run source m).
Proof.
  intros Hle. unfold run.
  apply mono_bind; [apply mono_refl|]. intros tokens.
  apply mono_bind.
  - unfold parse. apply mono_bind; [ by apply parse_loop_mono |].
    intros [? ?]; apply mono_refl.
  - intros ast. apply mono_bind; [ apply (interp_mono_le n m Hle) |].
    intros [? ?]; apply mono_refl.
Qed.

(** The scanning loop reads past the end of the text when every
    remaining character belongs to the token. *)
Lemma scan_runs_off_the_end p rest : forall c,
  forallb p (list_ascii_of_string rest) = true ->
  scan p rest c = Raise IndexError.
Proof.
  induction rest as [|ch rest IH]; intros c H; simpl in *; [reflexivity|].
  apply andb_true_iff in H as [-> H]. by apply IH.
Qed.

(** The lookahead hazard itself: followed by any character that ends the
    identifier, [iffy] is the keyword [if] and the identifier [fy]. *)
Lemma tokenize_iffy_newline :
  tokenize "iffy
" = Ok [mkToken TokenKind.IF "if"; mkToken TokenKind.IDENTIFIER "fy";
      mkToken TokenKind.EOF ""].
Proof. reflexivity. Qed.

(** C2: tokenizing the exact text [iffy] does not end normally with
    [IF, IDENTIFIER fy, EOF]: after the keyword, [identifier] scans [fy]
    and reads [source[4]], one past the end of the text, which raises
    [IndexError]. *)
Theorem tokenize_iffy_raises :
  tokenize "iffy" = Raise IndexError
  /\ identifier "iffy" 2 = Raise IndexError
  /\ lookahead "iffy" 0 "f" = (true, 1%nat).
Proof. repeat split. Qed.

(** C9: [1 + 2 * 3;] parses to the sum of 1 and the product of 2 and 3;
    the precedence of [STAR], 4, exceeds that of [PLUS], 3. *)
Theorem parse_sum_of_product :
  precedence TokenKind.STAR = Some 4
  /\ precedence TokenKind.PLUS = Some 3
  /\ (forall k,
        (tokens ← tokenize "1 + 2 * 3;"; parse_expression (16 + k) 0 tokens)
        = Ok (binary BinaryExpressionKind.ADD (literal 1)
                (binary BinaryExpressionKind.MUL (literal 2) (literal 3)),
              [mkToken TokenKind.SEMICOLON ";"; mkToken TokenKind.EOF ""]))
  /\ (forall k,
        (tokens ← tokenize "1 + 2 * 3;"; parse (16 + k) tokens)
        = Ok [mkStatement StatementKind.EXPRESSION
                (ExpressionStatement
                   (binary BinaryExpressionKind.ADD (literal 1)
                      (binary BinaryExpressionKind.MUL
                         (literal 2) (literal 3))))]).
Proof.
  split; [reflexivity|]. split; [reflexivity|]. split; intros k.
  - change (tokenize "1 + 2 * 3;") with (Ok
      [mkToken TokenKind.NUMBER "1"; mkToken TokenKind.PLUS "+";
       mkToken TokenKind.NUMBER "2"; mkToken TokenKind.STAR "*";
       mkToken TokenKind.NUMBER "3"; mkToken TokenKind.SEMICOLON ";";
       mkToken TokenKind.EOF ""]).
    cbn [mbind result_bind].
    eapply mono_ok; [ apply (parse_expression_mono 16 (16 + k)); lia |].
    reflexivity.
  - change (tokenize "1 + 2 * 3;") with (Ok
      [mkToken TokenKind.NUMBER "1"; mkToken TokenKind.PLUS "+";
       mkToken TokenKind.NUMBER "2"; mkToken TokenKind.STAR "*";
       mkToken TokenKind.NUMBER "3"; mkToken TokenKind.SEMICOLON ";";
       mkToken TokenKind.EOF ""]).
    cbn [mbind result_bind].
    eapply parse_fuel_mono with (n := 16%nat); [lia|]. reflexivity.
Qed.

(** C1: the demo program prints one line, the double 55, whose text is
    [55.0], and nothing else. *)
Theorem main_prints_55 :
  forall k,
    main (100 + k) = Ok [VFloat (float_of_Z 55)]
    /\ map Py.str [VFloat (float_of_Z 55)] = [Some "55.0"].
Proof.
  intros k. split; [|reflexivity].
  eapply mono_ok; [ apply (run_mono source 100 (100 + k)); lia |].
  vm_compute. reflexivity.
Qed.

(** C5: a [Let] statement and an expression tagged [Assign] have no case
    in the evaluator and end in its final [assert False], whatever they
    hold and whatever the state; both are what the parser builds for
    [let x = 1;] and [x = 1;]. *)
Theorem let_and_assign_unhandled :
  (forall fuel payload self,
      exec_stmt (S fuel) (mkStatement StatementKind.LET payload) self
      = Raise AssertionError)
  /\ (forall fuel payload self,
        _eval (S fuel) (mkExpression ExpressionKind.ASSIGN payload) self
        = Raise AssertionError)
  /\ (forall k,
        (tokens ← tokenize "let x = 1;"; parse (16 + k) tokens)
        = Ok [mkStatement StatementKind.LET
                (LetStatement (assign (variable "x") (literal 1)))])
  /\ (forall k,
        (tokens ← tokenize "x = 1;"; parse (16 + k) tokens)
        = Ok [mkStatement StatementKind.EXPRESSION
                (ExpressionStatement (assign (variable "x") (literal 1)))])
  /\ (forall k, run "let x = 1;" (16 + k) = Raise AssertionError)
  /\ (forall k, run "x = 1;" (16 + k) = Raise AssertionError).
Proof.
  split; [reflexivity|]. split; [reflexivity|].
  split; [|split; [|split]]; intros k.
  - change (tokenize "let x = 1;") with (Ok
      [mkToken TokenKind.LET "let"; mkToken TokenKind.IDENTIFIER "x";
       mkToken TokenKind.EQUAL "="; mkToken TokenKind.NUMBER "1";
       mkToken TokenKind.SEMICOLON ";"; mkToken TokenKind.EOF ""]).
    cbn [mbind result_bind].
    eapply parse_fuel_mono with (n := 16%nat); [lia|]. reflexivity.
  - change (tokenize "x = 1;") with (Ok
      [mkToken TokenKind.IDENTIFIER "x";
       mkToken TokenKind.EQUAL "="; mkToken TokenKind.NUMBER "1";
       mkToken TokenKind.SEMICOLON ";"; mkToken TokenKind.EOF ""]).
    cbn [mbind result_bind].
    eapply parse_fuel_mono with (n := 16%nat); [lia|]. reflexivity.
  - eapply mono_raise; [ apply (run_mono _ 16 (16 + k)); lia |]. reflexivity.
  - eapply mono_raise; [ apply (run_mono _ 16 (16 + k)); lia |]. reflexivity.
Qed.

(** C8: an [If] whose condition is false returns nothing and leaves the
    state as the condition left it: neither branch runs.  The else-branch
    has no influence on an [If] at all. *)
Theorem if_false_runs_no_branch :
  forall fuel condition then_branch else_branch self c self',
    _eval fuel condition self = Ok (c, self') ->
    truthy c = false ->
    exec_stmt (S fuel)
      (mkStatement StatementKind.IF
         (IfStatement condition then_branch else_branch)) self
    = Ok (VNone, self')
    /\ forall n other st,
         exec_stmt n
           (mkStatement StatementKind.IF
              (IfStatement condition then_branch other)) st
         = exec_stmt n
             (mkStatement StatementKind.IF
                (IfStatement condition then_branch else_branch)) st.
Proof.
  intros fuel condition then_branch else_branch self c self' Hc Hf. split.
  - simpl. rewrite Hc. cbn. by rewrite Hf.
  - intros [|n] other st; reflexivity.
Qed.

(** [if (2 < 1) print 1; else print 2;] prints nothing. *)
Lemma if_false_runs_no_branch_witness :
  let st := mkInterpreter ∅ ∅ [] in
  let cond := binary BinaryExpressionKind.LT (literal 2) (literal 1) in
  let p n := mkStatement StatementKind.PRINT (PrintStatement (literal n)) in
  exec_stmt 3 (mkStatement StatementKind.IF (IfStatement cond (p 1) (Some (p 2)))) st
  = Ok (VNone, st).
Proof.
  intros st cond p.
  apply (if_false_runs_no_branch 2 cond (p 1) (Some (p 2)) st (VBool false) st);
    reflexivity.
Defined.

End SpamFacts.

(* ===================================================================== *)
(** * The extended interpreter: scopes and depth                          *)
(* ===================================================================== *)

Lemma bind_Ok {A B} (m : result A) (k : A -> result B) (b : B) :
  m ≫= k = Ok b -> exists a, m = Ok a /\ k a = Ok b.
Proof. destruct m as [a| |]; cbn; [eauto | discriminate | discriminate]. Qed.

(** Takes a finished run [H : ... = Ok _] apart into the finished runs of
    its steps. *)
Ltac invert_run H :=
  repeat match type of H with
  | Ok _ = Ok _ => injection H as; subst
  | Raise _ = Ok _ => discriminate H
  | OutOfFuel = Ok _ => discriminate H
  | _ ≫= _ = Ok _ =>
      let a := fresh "a" in
      let Ha := fresh "Hrun" in
      apply bind_Ok in H as (a & Ha & H)
  | (let '(_, _) := ?p in _) = Ok _ => destruct p
  | match ?x with _ => _ end = Ok _ => destruct x eqn:?
  | (if ?b then _ else _) = Ok _ => destruct b eqn:?
  end.

Section ViperScopes.
Import Viper.

Lemma frame_refl self : frame self self.
Proof. split; auto. Qed.

Lemma frame_trans a b c : frame a b -> frame b c -> frame a c.
Proof.
  intros [Hd Hg] [Hd' Hg']. split; [congruence|].
  intros H. rewrite Hg', Hg; auto. lia.
Qed.

Lemma frame_set_locals l self : frame self (set_locals l self).
Proof. split; auto. Qed.

Lemma frame_set_functions f self : frame self (set_functions f self).
Proof. split; auto. Qed.

Lemma frame_print v self : frame self (print v self).
Proof. split; auto. Qed.

Lemma frame_store a b name v :
  frame a b -> frame a (store (0 <? depth a) name v b).
Proof.
  intros [Hd Hg]. unfold store.
  destruct (Z.ltb_spec 0 (depth a)); split; cbn; auto; lia.
Qed.

Lemma frame_del name self self' : del name self = Ok self' -> frame self self'.
Proof.
  unfold del. intros H.
  destruct (Z.ltb_spec 0 (depth self)); invert_run H; split; cbn; auto; lia.
Qed.

Lemma frame_block self self' :
  frame (set_depth (depth self + 1) self) self' ->
  frame self (set_depth (depth self' - 1) self').
Proof.
  intros [Hd Hg]; cbn in *. split; cbn; [lia|]. intros H. apply Hg. lia.
Qed.

Lemma frame_call self a b l l' :
  frame self a -> frame (set_locals l a) b -> frame self (set_locals l' b).
Proof.
  intros Ha Hb. eapply frame_trans; [exact Ha|].
  eapply frame_trans; [apply (frame_set_locals l)|].
  eapply frame_trans; [exact Hb|]. apply frame_set_locals.
Qed.

Lemma viper_frame_all n : viper_frame n.
Proof.
  induction n as [|n (He & Hc & Hs & Hx & Hw & Hf)].
  { repeat apply conj; intros; discriminate. }
  assert (Hfr := frame_refl). assert (Htr := frame_trans).
  repeat apply conj.
  - intros e self v self' H; simpl in H. invert_run H;
      eauto using frame_store, frame_call.
  - intros items d self d' self' H; simpl in H. invert_run H; eauto.
  - intros s self v self' H; simpl in H. invert_run H;
      eauto using frame_print, frame_set_functions, frame_block;
      eauto 6 using frame_del, frame_store.
  - intros ast self v self' H; simpl in H. invert_run H; eauto.
  - intros c b self self' H; simpl in H. invert_run H; eauto 7.
  - intros c b a self self' H; simpl in H. invert_run H; eauto 9.
Qed.

Lemma Expression_eval_frame n e self v self' :
  Expression_eval n e self = Ok (v, self') -> frame self self'.
Proof. apply (viper_frame_all n). Qed.

Lemma _exec_frame n ast self v self' :
  _exec n ast self = Ok (v, self') -> frame self self'.
Proof. apply (viper_frame_all n). Qed.

Lemma Statement_exec_frame n s self v self' :
  Statement_exec n s self = Ok (v, self') -> frame self self'.
Proof. apply (viper_frame_all n). Qed.

(** ** Reads and writes *)




Lemma store_nested d name v self :
  0 < d ->
  store (0 <? d) name v self = set_locals (<[name := v]> (locals self)) self.
Proof. intros H. unfold store. by rewrite (proj2 (Z.ltb_lt _ _) H). Qed.


Lemma assign_block_run fuel x rhs self v self1 :
  Expression_eval fuel rhs (set_depth (depth self + 1) self) = Ok (v, self1) ->
  Statement_exec (4 + fuel) (assign_block x rhs) self
  = Ok (VNone,
        set_depth (depth self1 - 1) (store (0 <? depth self + 1) x v self1)).
Proof.
  intros H. unfold assign_block.
  change (4 + fuel)%nat with (S (S (S (S fuel)))).
  cbn [Statement_exec _exec Expression_eval]. rewrite H. cbn.
  unfold store. destruct (0 <? depth self + 1); reflexivity.
Qed.

(** Leaving a block restores the depth and nothing else: the locals are
    those the body left. *)
Lemma block_exit fuel body self r self2 :
  _exec fuel body (set_depth (depth self + 1) self) = Ok (r, self2) ->
  Statement_exec (S fuel) (BlockStatement body) self
  = Ok (r, set_depth (depth self) self2)
  /\ locals (set_depth (depth self) self2) = locals self2.
Proof.
  intros H. split; [|reflexivity]. cbn [Statement_exec]. rewrite H. cbn.
  apply _exec_frame in H as [Hd _]. cbn in Hd. rewrite Hd.
  do 2 f_equal. f_equal. lia.
Qed.

(** The body of a loop may return a value; the loop goes on regardless. *)
Lemma while_loop_discards n condition body self c self1 v self2 :
  Expression_eval n condition self = Ok (c, self1) ->
  truthy c = true ->
  Statement_exec n body self1 = Ok (v, self2) ->
  while_loop (S n) condition body self = while_loop n condition body self2.
Proof. intros Hc Ht Hb. cbn [while_loop]. rewrite Hc. cbn. rewrite Ht, Hb. reflexivity. Qed.

(** C3: at the top level with [x] a global, a block that assigns to [x]
    binds [x] in [locals] to the assigned value and leaves [globals], and
    so the global [x], as it was. *)
Theorem assign_in_block_shadows_global :
  forall fuel x rhs self g v self1,
    depth self = 0 ->
    globals self !! x = Some g ->
    Expression_eval fuel rhs (set_depth 1 self) = Ok (v, self1) ->
    exists self',
      Statement_exec (4 + fuel) (assign_block x rhs) self = Ok (VNone, self')
      /\ locals self' = <[x := v]> (locals self1)
      /\ locals self' !! x = Some v
      /\ globals self' = globals self
      /\ globals self' !! x = Some g
      /\ depth self' = 0.
Proof.
  intros fuel x rhs self g v self1 Hd Hg H.
  pose proof (Expression_eval_frame _ _ _ _ _ H) as [Hd1 Hg1].
  cbn in Hd1, Hg1. specialize (Hg1 ltac:(lia)).
  eexists. split.
  - apply assign_block_run. rewrite Hd. exact H.
  - rewrite store_nested by lia. cbn. rewrite Hd1, Hg1.
    repeat apply conj; auto. apply lookup_insert_eq.
Qed.

(** [x = 1] at the top level, then [{ x = 2; }]. *)
Lemma assign_in_block_shadows_global_witness :
  let one := VFloat (float_of_Z 1) in
  let two := VFloat (float_of_Z 2) in
  let self := mkInterpreter {["x" := one]} ∅ ∅ 0 [] in
  exists self',
    Statement_exec 5 (assign_block "x" (LiteralExpression (float_of_Z 2))) self
    = Ok (VNone, self')
    /\ locals self' = <["x" := two]> ∅
    /\ locals self' !! "x" = Some two
    /\ globals self' = globals self
    /\ globals self' !! "x" = Some one
    /\ depth self' = 0.
Proof.
  intros one two self.
  apply (assign_in_block_shadows_global 1 "x"
           (LiteralExpression (float_of_Z 2)) self one two (set_depth 1 self));
    reflexivity.
Defined.

(** Conversely to the theorem below: when the loop ends, the statement
    returns, and what it returns is [None]. *)
Lemma while_returns_when_loop_ends n condition body self self' :
  while_loop n condition body self = Ok self' ->
  Statement_exec (S n) (WhileStatement condition body) self = Ok (VNone, self').
Proof. intros H. cbn [Statement_exec]. rewrite H. reflexivity. Qed.

(** C7: whenever a [While] statement returns, it returns [None], for
    every condition and body: its state is the one in which the loop
    ended, and nothing a round of the body returned is part of the
    result. *)
Theorem while_yields_nothing :
  forall fuel condition body self r self',
    Statement_exec fuel (WhileStatement condition body) self = Ok (r, self') ->
    r = VNone
    /\ exists n, fuel = S n /\ while_loop n condition body self = Ok self'.
Proof.
  intros [|fuel] condition body self r self' H; [discriminate|].
  cbn [Statement_exec] in H. invert_run H. eauto.
Qed.

(** [while (x < 1) { x = 1; return 5; }] with the global [x] at 0: the
    body returns 5 in its only round, the loop returns [None]. *)
Lemma while_yields_nothing_witness :
  let self := mkInterpreter {["x" := VFloat (float_of_Z 0)]} ∅ ∅ 0 [] in
  let self' :=
    mkInterpreter {["x" := VFloat (float_of_Z 0)]}
      {["x" := VFloat (float_of_Z 1)]} ∅ 0 [] in
  Statement_exec 8 returning_loop self = Ok (VNone, self')
  /\ VNone = VNone
  /\ exists n,
       8%nat = S n
       /\ while_loop n
            (BinaryExpression BinaryExpressionKind.LT
               (VariableExpression "x") (LiteralExpression (float_of_Z 1)))
            (BlockStatement
               [ExpressionStatement
                  (AssignExpression (VariableExpression "x")
                     (LiteralExpression (float_of_Z 1)));
                ReturnStatement (LiteralExpression (float_of_Z 5))])
            self
          = Ok self'.
Proof.
  intros self self'.
  assert (H : Statement_exec 8 returning_loop self = Ok (VNone, self'))
    by (vm_compute; reflexivity).
  split; [exact H|].
  exact (while_yields_nothing 8 _ _ self VNone self' H).
Defined.

(** The body of that loop does return 5 when it runs. *)
Lemma returning_loop_body_returns :
  let self := mkInterpreter {["x" := VFloat (float_of_Z 0)]} ∅ ∅ 0 [] in
  exists self1,
    Statement_exec 6
      (BlockStatement
         [ExpressionStatement
            (AssignExpression (VariableExpression "x")
               (LiteralExpression (float_of_Z 1)));
          ReturnStatement (LiteralExpression (float_of_Z 5))]) self
    = Ok (VFloat (float_of_Z 5), self1).
Proof. eexists. vm_compute. reflexivity. Qed.


End ViperScopes.

(* ===================================================================== *)
(** * The extended interpreter: loops                                     *)
(* ===================================================================== *)

Section ViperLoops.
Import Viper.










(** The hypothesis on [locals] matters: reads look there first, so a
    local [i] left behind by an earlier block is the [i] the condition
    sees, while the initializer and the deletion work on [globals]. *)
Lemma counting_loop_behind_a_local :
  let five := VFloat (float_of_Z 5) in
  let self := mkInterpreter ∅ {["i" := five]} ∅ 0 [] in
  Statement_exec 8 counting_loop self = Ok (VNone, self)
  /\ resolve self "i" = Ok five.
Proof. split; vm_compute; reflexivity. Qed.

End ViperLoops.

(* ===================================================================== *)
(** * The two evaluators on arithmetic                                    *)
(* ===================================================================== *)

Section Arithmetic.

Lemma denote_finishes a : denote a <> OutOfFuel.
Proof.
  assert (Hop : forall op x y, apply_operator op x y <> OutOfFuel).
  { intros op x y.
    destruct op; unfold apply_operator, add, sub, mul, div, lt, arith;
      destruct (as_num x) as [[?|?]|], (as_num y) as [[?|?]|];
      unfold int_true_divide, to_double;
      repeat (cbn [mbind result_bind];
              match goal with
              | |- Ok _ <> _ => discriminate
              | |- Raise _ <> _ => discriminate
              | |- (if ?b then _ else _) <> _ => destruct b
              | |- (let '(_, _) := ?p in _) <> _ => destruct p
              | |- context [if ?b then _ else _] => destruct b
              end). }
  induction a as [f|op lhs IHl rhs IHr]; cbn [denote]; [discriminate|].
  destruct (denote lhs); cbn [mbind result_bind]; try congruence.
  destruct (denote rhs); cbn [mbind result_bind]; try congruence; apply Hop.
Qed.

(** The tree the prototype parser builds for [1 + 2 * 3] is such a tree. *)
Lemma parsed_sum_is_arithmetic :
  binary Spam.BinaryExpressionKind.ADD (literal 1)
    (binary Spam.BinaryExpressionKind.MUL (literal 2) (literal 3))
  = prototype_tree
      (Operation Plus (Number (float_of_Z 1))
         (Operation Star (Number (float_of_Z 2)) (Number (float_of_Z 3)))).
Proof. reflexivity. Qed.

Lemma prototype_operator op :
  Spam.binary_operator (operator_kind op) = Some (apply_operator op).
Proof. by destruct op. Qed.

Lemma extended_operator op :
  Viper.binary_operator (operator_kind' op) = Some (apply_operator op).
Proof. by destruct op. Qed.

Lemma prototype_denote a : forall fuel self,
  (height a < fuel)%nat ->
  Spam._eval fuel (prototype_tree a) self = (v ← denote a; Ok (v, self)).
Proof.
  induction a as [f|op lhs IHl rhs IHr]; intros [|fuel] self Hf;
    try (cbn in Hf; lia); [reflexivity|].
  cbn [prototype_tree Spam._eval height denote] in *.
  rewrite prototype_operator, IHl by lia.
  destruct (denote lhs); cbn [mbind result_bind]; try reflexivity.
  rewrite IHr by lia.
  destruct (denote rhs); reflexivity.
Qed.

Lemma extended_denote a : forall fuel self,
  (height a < fuel)%nat ->
  Viper.Expression_eval fuel (extended_tree a) self
  = (v ← denote a; Ok (v, self)).
Proof.
  induction a as [f|op lhs IHl rhs IHr]; intros [|fuel] self Hf;
    try (cbn in Hf; lia); [reflexivity|].
  cbn [extended_tree Viper.Expression_eval height denote] in *.
  rewrite extended_operator, IHl by lia.
  destruct (denote lhs); cbn [mbind result_bind]; try reflexivity.
  rewrite IHr by lia.
  destruct (denote rhs); reflexivity.
Qed.

(** C6: on an expression built from numeric literals with [+ - * / <],
    the prototype evaluator and the extended evaluator produce the same
    result: the same value, or the same exception.  Neither changes the
    state it runs in. *)
Theorem evaluators_agree_on_arithmetic :
  forall a fuel (proto : Spam.Interpreter) (ext : Viper.Interpreter),
    (height a < fuel)%nat ->
    produced (Spam._eval fuel (prototype_tree a) proto)
    = produced (Viper.Expression_eval fuel (extended_tree a) ext)
    /\ produced (Spam._eval fuel (prototype_tree a) proto) = denote a
    /\ denote a <> OutOfFuel
    /\ (forall v proto',
          Spam._eval fuel (prototype_tree a) proto = Ok (v, proto') ->
          proto' = proto)
    /\ (forall v ext',
          Viper.Expression_eval fuel (extended_tree a) ext = Ok (v, ext') ->
          ext' = ext).
Proof.
  intros a fuel proto ext Hf.
  rewrite prototype_denote, extended_denote by exact Hf.
  pose proof (denote_finishes a) as Hd.
  destruct (denote a) as [v| e |]; [ | | congruence ]; cbn;
    repeat apply conj; try congruence.
Qed.

Lemma evaluators_agree_on_arithmetic_witness :
  let proto := Spam.mkInterpreter ∅ ∅ [] in
  let ext := Viper.mkInterpreter ∅ ∅ ∅ 0 [] in
  produced (Spam._eval 4 (prototype_tree sample) proto)
  = produced (Viper.Expression_eval 4 (extended_tree sample) ext)
  /\ produced (Spam._eval 4 (prototype_tree sample) proto) = Ok (VBool false).
Proof.
  intros proto ext.
  destruct (evaluators_agree_on_arithmetic sample 4 proto ext) as (H1 & H2 & _).
  - cbn. lia.
  - split; [exact H1 | exact H2].
Defined.

End Arithmetic.

(* ===================================================================== *)
(** * The extended interpreter: a shadow outlives its block                *)
(* ===================================================================== *)

Section ViperShadow.
Import Viper.


(** The demo prints 2 (the local [x] left by the block), then 1 (inside the
    call the locals are the parameters, so [x] is the global), then 2 again
    (the caller's locals are back). *)
Lemma shadow_until_call :
  forall k,
    exists self',
      _exec (12 + k) shadow_demo (mkInterpreter ∅ ∅ ∅ 0 []) = Ok (VNone, self')
      /\ stdout self'
         = [VFloat (float_of_Z 2); VFloat (float_of_Z 1); VFloat (float_of_Z 2)]
      /\ globals self' !! "x" = Some (VFloat (float_of_Z 1))
      /\ locals self' !! "x" = Some (VFloat (float_of_Z 2))
      /\ depth self' = 0.
Proof.
  intros k.
  destruct (_exec 12 shadow_demo (mkInterpreter ∅ ∅ ∅ 0 [])) as [[v self']| |] eqn:E;
    try (vm_compute in E; discriminate).
  exists self'.
  assert (E' := E). vm_compute in E'. injection E' as <- <-.
  split; [ | repeat split ].
  eapply _exec_fuel_mono; [ | exact E]. lia.
Qed.

End ViperShadow.

(* ===================================================================== *)
(** * The prototype tokenizer never exhausts its budget                    *)
(* ===================================================================== *)

Section TokenizerTotal.
Import Spam.

Lemma get_lt s : forall c v,
  String.get c s = Some v -> (c < String.length s)%nat.
Proof.
  induction s as [|a s IH]; intros [|c] v H; simpl in *;
    try discriminate; [lia|]. apply IH in H. lia.
Qed.

Lemma get_suffix s : forall c v,
  String.get c s = Some v -> exists rest, suffix s c = String v rest.
Proof.
  unfold suffix, slice.
  induction s as [|a s IH]; intros [|c] v H; simpl in *; try discriminate.
  - injection H as ->. eauto.
  - apply IH in H. exact H.
Qed.

Lemma scan_finishes p rest : forall c, scan p rest c <> OutOfFuel.
Proof.
  induction rest as [|ch rest IH]; intros c; simpl; [discriminate|].
  destruct (p ch); [apply IH | discriminate].
Qed.

Lemma scan_le p rest : forall c c', scan p rest c = Ok c' -> (c <= c')%nat.
Proof.
  induction rest as [|ch rest IH]; intros c c' H; simpl in H; [discriminate|].
  destruct (p ch).
  - apply IH in H. lia.
  - injection H as ->. lia.
Qed.

(** Started on a character of the token, the scan moves at least one
    character on, so the cursor [c - 1] it leaves is not behind. *)
Lemma scan_advances p source current v c :
  String.get current source = Some v -> p v = true ->
  scan p (suffix source current) current = Ok c -> (current < c)%nat.
Proof.
  intros Hget Hp H. destruct (get_suffix _ _ _ Hget) as [rest E].
  rewrite E in H. simpl in H. rewrite Hp in H. apply scan_le in H. lia.
Qed.

Lemma identifier_advances source current v token current' :
  String.get current source = Some v -> is_identifier_char v = true ->
  identifier source current = Ok (token, current') ->
  (current <= current')%nat.
Proof.
  intros Hget Hp H. unfold identifier in H. invert_run H.
  eapply scan_advances in Hrun; eauto. lia.
Qed.

Lemma number_advances source current v token current' :
  String.get current source = Some v -> isdigit v = true ->
  number source current = Ok (token, current') ->
  (current <= current')%nat.
Proof.
  intros Hget Hp H. unfold number in H. invert_run H.
  eapply scan_advances in Hrun; eauto. lia.
Qed.

Lemma keyword_advances source current v thing k text token current' :
  String.get current source = Some v -> is_identifier_char v = true ->
  keyword source current thing k text = Ok (token, current') ->
  (current <= current')%nat.
Proof.
  intros Hget Hp H. unfold keyword, lookahead in H.
  destruct (String.eqb _ thing).
  - injection H as _ <-. lia.
  - eapply identifier_advances; eauto.
Qed.

Lemma token_at_advances source current v token current' :
  String.get current source = Some v ->
  token_at source current v = Ok (token, current') ->
  (current <= current')%nat.
Proof.
  intros Hget H. unfold token_at, single in H.
  repeat match type of H with
  | (if Ascii.eqb v ?c then _ else _) = _ =>
      destruct (Ascii.eqb_spec v c) as [Hv|_];
      [ first [ eapply keyword_advances; [exact Hget | rewrite Hv; reflexivity | exact H]
              | injection H as _ <-; lia ] | ]
  | (if isalpha v then _ else _) = _ =>
      destruct (isalpha v) eqn:Ha;
      [ eapply identifier_advances;
        [exact Hget | unfold is_identifier_char; rewrite Ha; reflexivity | exact H] | ]
  | (if isdigit v then _ else _) = _ =>
      destruct (isdigit v) eqn:Hd;
      [ eapply number_advances; [exact Hget | exact Hd | exact H] | ]
  end.
  discriminate.
Qed.

Lemma token_at_finishes source current v :
  token_at source current v <> OutOfFuel.
Proof.
  assert (Hi : forall c, identifier source c <> OutOfFuel).
  { intros c. unfold identifier.
    pose proof (scan_finishes is_identifier_char (suffix source c) c).
    destruct (scan _ _ _); cbn; congruence. }
  assert (Hn : forall c, number source c <> OutOfFuel).
  { intros c. unfold number.
    pose proof (scan_finishes isdigit (suffix source c) c).
    destruct (scan _ _ _); cbn; congruence. }
  assert (Hk : forall thing k text,
             keyword source current thing k text <> OutOfFuel).
  { intros. unfold keyword. destruct (lookahead _ _ _) as [[|] ?];
      [discriminate | apply Hi]. }
  unfold token_at, single.
  repeat match goal with
  | |- (if ?b then _ else _) <> _ =>
      destruct b; [ first [apply Hk | apply Hi | apply Hn | discriminate] | ]
  end.
  discriminate.
Qed.

Lemma tokenize_loop_finishes fuel : forall source current tokens,
  (String.length source - current < fuel)%nat ->
  tokenize_loop fuel source current tokens <> OutOfFuel.
Proof.
  induction fuel as [|fuel IH]; intros source current tokens Hf; [lia|].
  simpl. destruct (String.get current source) as [v|] eqn:Hget;
    [|discriminate].
  pose proof (get_lt _ _ _ Hget) as Hlt.
  destruct (isspace v); [apply IH; lia|].
  pose proof (token_at_finishes source current v) as Hfin.
  destruct (token_at source current v) as [[token current']| |] eqn:Ht;
    cbn; [ | discriminate | congruence ].
  apply token_at_advances in Ht; [|exact Hget]. apply IH. lia.
Qed.

(** The budget [tokenize] gives its loop is enough for every text. *)
Lemma tokenize_finishes source : tokenize source <> OutOfFuel.
Proof. apply tokenize_loop_finishes. lia. Qed.

End TokenizerTotal.

(* ===================================================================== *)
(** * Further properties of the tokenizer, the parsers and the runs       *)
(* ===================================================================== *)

Section TokenizerShape.
Import Spam.

Lemma identifier_kind source current token current' :
  identifier source current = Ok (token, current') ->
  kind token = TokenKind.IDENTIFIER.
Proof. unfold identifier. intros H. invert_run H. reflexivity. Qed.

Lemma number_kind source current token current' :
  number source current = Ok (token, current') ->
  kind token = TokenKind.NUMBER.
Proof. unfold number. intros H. invert_run H. reflexivity. Qed.

Lemma token_at_not_eof source current v token current' :
  token_at source current v = Ok (token, current') -> not_eof token.
Proof.
  unfold token_at, keyword, single, lookahead, not_eof. intros H.
  repeat match type of H with
  | (if ?b then _ else _) = _ => destruct b
  | (let '(_, _) := ?p in _) = _ => destruct p
  end;
  first [ apply identifier_kind in H; rewrite H; discriminate
        | apply number_kind in H; rewrite H; discriminate
        | injection H as <- _; discriminate
        | discriminate ].
Qed.

(** The loop only appends: what it returns is the tokens it was given,
    then tokens that are not [EOF], then the one [EOF] token. *)
Lemma tokenize_loop_shape fuel : forall source current tokens r,
  tokenize_loop fuel source current tokens = Ok r ->
  exists more,
    r = (tokens ++ more ++ [mkToken TokenKind.EOF ""])%list
    /\ Forall not_eof more.
Proof.
  induction fuel as [|fuel IH]; intros source current tokens r H;
    [discriminate|].
  simpl in H. destruct (String.get current source) as [v|] eqn:Hget.
  - destruct (isspace v); [by apply IH in H|].
    apply bind_Ok in H as ([token current'] & Ht & H).
    apply IH in H as (more & -> & Hmore).
    exists (token :: more). split.
    + by rewrite <- app_assoc.
    + constructor; [by eapply token_at_not_eof | exact Hmore].
  - injection H as <-. exists []. split; [reflexivity | constructor].
Qed.

(** X1: the prototype's tokenizer, when it returns, returns a list whose
    last token is EOF with empty text and which holds no other EOF. *)
Theorem tokens_end_with_one_eof :
  forall source tokens,
    tokenize source = Ok tokens ->
    exists body,
      tokens = (body ++ [mkToken TokenKind.EOF ""])%list
      /\ Forall not_eof body.
Proof.
  intros source tokens H. apply tokenize_loop_shape in H as (more & -> & Hm).
  eauto.
Qed.

Lemma tokens_end_with_one_eof_witness :
  exists body,
    [mkToken TokenKind.IDENTIFIER "x"; mkToken TokenKind.SEMICOLON ";";
     mkToken TokenKind.EOF ""]
    = (body ++ [mkToken TokenKind.EOF ""])%list
    /\ Forall not_eof body.
Proof.
  apply (tokens_end_with_one_eof "x;"). reflexivity.
Defined.

Lemma scan_raises p rest : forall c e, scan p rest c = Raise e -> e = IndexError.
Proof.
  induction rest as [|ch rest IH]; intros c e H; simpl in H.
  - by injection H as <-.
  - destruct (p ch); [eauto | discriminate].
Qed.

Lemma token_at_raises source current v e :
  token_at source current v = Raise e -> e = IndexError \/ e = UnknownToken.
Proof.
  assert (Hi : forall c, identifier source c = Raise e -> e = IndexError).
  { unfold identifier. intros c H.
    destruct (scan _ _ _) eqn:E; cbn in H; try discriminate.
    injection H as <-. by eapply scan_raises. }
  assert (Hn : forall c, number source c = Raise e -> e = IndexError).
  { unfold number. intros c H.
    destruct (scan _ _ _) eqn:E; cbn in H; try discriminate.
    injection H as <-. by eapply scan_raises. }
  unfold token_at, keyword, single, lookahead. intros H.
  repeat match type of H with
  | (if ?b then _ else _) = _ => destruct b
  | (let '(_, _) := ?p in _) = _ => destruct p
  end; try discriminate; eauto.
  injection H as <-. auto.
Qed.

Lemma tokenize_loop_raises fuel : forall source current tokens e,
  tokenize_loop fuel source current tokens = Raise e ->
  e = IndexError \/ e = UnknownToken.
Proof.
  induction fuel as [|fuel IH]; intros source current tokens e H;
    [discriminate|].
  simpl in H. destruct (String.get current source) as [v|]; [|discriminate].
  destruct (isspace v); [eauto|].
  destruct (token_at source current v) as [[token current']| e' |] eqn:Ht;
    cbn in H; [eauto | | discriminate].
  injection H as <-. by eapply token_at_raises.
Qed.

(** X2: on every text the prototype's tokenizer ends in one of three
    ways: a token list, IndexError (a read past the end of the text) or
    the exception for an unknown character.  It never fails otherwise and
    always finishes. *)
Theorem tokenize_outcomes :
  forall source,
    (exists tokens, tokenize source = Ok tokens)
    \/ tokenize source = Raise IndexError
    \/ tokenize source = Raise UnknownToken.
Proof.
  intros source. pose proof (tokenize_finishes source) as Hf.
  destruct (tokenize source) as [tokens| e |] eqn:E; [eauto | | congruence].
  apply tokenize_loop_raises in E as [-> | ->]; auto.
Qed.

End TokenizerShape.

Section TokenizerEdges.
Import Spam.

Lemma isdigit_identifier c : isdigit c = true -> is_identifier_char c = true.
Proof.
  intros H. unfold is_identifier_char. rewrite H.
  by destruct (isalpha c).
Qed.

(** A scan stops, without reading past the end, once some character of
    the rest is outside the class. *)
Lemma scan_stops p pre : forall ch c,
  p ch = false -> exists c', scan p (pre +:+ String ch "") c = Ok c'.
Proof.
  induction pre as [|a pre IH]; intros ch c Hp; simpl.
  - rewrite Hp. eauto.
  - destruct (p a); eauto.
Qed.

Lemma suffix_app_last s ch : forall c,
  (c <= String.length s)%nat ->
  exists pre, suffix (s +:+ String ch "") c = pre +:+ String ch "".
Proof.
  unfold suffix, slice.
  induction s as [|a s IH]; intros c Hc; simpl in *.
  - assert (c = 0%nat) as -> by lia. exists "". reflexivity.
  - destruct c as [|c].
    + destruct (IH 0%nat ltac:(lia)) as [pre E]. simpl.
      rewrite Nat.sub_0_r in E. rewrite E. by exists (String a pre).
    + apply IH. lia.
Qed.

Lemma length_app_last s ch :
  String.length (s +:+ String ch "") = S (String.length s).
Proof. induction s as [|a s IH]; simpl; [reflexivity | by rewrite IH]. Qed.

Lemma token_at_in_bounds s ch current v :
  is_identifier_char ch = false ->
  String.get current (s +:+ String ch "") = Some v ->
  token_at (s +:+ String ch "") current v <> Raise IndexError.
Proof.
  intros Hch Hget.
  apply get_lt in Hget. rewrite length_app_last in Hget.
  destruct (suffix_app_last s ch current ltac:(lia)) as [pre E].
  assert (Hi : identifier (s +:+ String ch "") current <> Raise IndexError).
  { unfold identifier. rewrite E.
    destruct (scan_stops is_identifier_char pre ch current Hch) as [c' ->].
    discriminate. }
  assert (Hn : number (s +:+ String ch "") current <> Raise IndexError).
  { unfold number. rewrite E.
    assert (Hd : isdigit ch = false).
    { destruct (isdigit ch) eqn:Hd; [|reflexivity].
      apply isdigit_identifier in Hd. congruence. }
    destruct (scan_stops isdigit pre ch current Hd) as [c' ->].
    discriminate. }
  unfold token_at, keyword, single, lookahead.
  repeat match goal with
  | |- (if ?b then _ else _) <> _ => destruct b
  | |- (let '(_, _) := ?p in _) <> _ => destruct p
  end; first [ exact Hi | exact Hn | discriminate ].
Qed.

(** X3: a text whose last character cannot continue a name or a number
    (anything but a letter, a digit or an underscore) is never read past
    its end: tokenizing it does not raise IndexError. *)
Theorem no_index_error_before_a_delimiter :
  forall s ch,
    is_identifier_char ch = false ->
    tokenize (s +:+ String ch "") <> Raise IndexError.
Proof.
  intros s ch Hch. unfold tokenize.
  generalize (S (String.length (s +:+ String ch ""))) as fuel.
  generalize (@nil Token) as tokens. generalize 0%nat as current.
  intros current tokens fuel. revert current tokens.
  induction fuel as [|fuel IH]; intros current tokens; [discriminate|].
  simpl. destruct (String.get current _) as [v|] eqn:Hget; [|discriminate].
  destruct (isspace v); [apply IH|].
  pose proof (token_at_in_bounds s ch current v Hch Hget) as Ht.
  destruct (token_at _ current v) as [[token current']| e |];
    cbn; [apply IH | congruence | discriminate].
Qed.

Lemma no_index_error_before_a_delimiter_witness :
  tokenize ("iffy" +:+ String ";" "") <> Raise IndexError.
Proof.
  apply (no_index_error_before_a_delimiter "iffy" ";"). reflexivity.
Defined.

Lemma substring_prefix thing : forall rest,
  substring 0 (String.length thing) (thing +:+ rest) = thing.
Proof.
  induction thing as [|a thing IH]; intros rest; simpl.
  - by destruct rest.
  - by rewrite IH.
Qed.

Lemma lookahead_prefix c thing rest :
  lookahead (String c (thing +:+ rest)) 0 thing
  = (true, String.length thing).
Proof.
  unfold lookahead, slice. simpl.
  replace (String.length thing + 1 - 1)%nat with (String.length thing) by lia.
  rewrite substring_prefix, String.eqb_refl. reflexivity.
Qed.

Lemma keyword_token word k rest :
  In (word, k) keywords ->
  exists c thing,
    word = String c thing
    /\ isspace c = false
    /\ token_at (String c (thing +:+ rest)) 0 c
       = Ok (mkToken k word, String.length thing).
Proof.
  intros Hin. simpl in Hin.
  repeat (destruct Hin as [[= <- <-] | Hin];
          [ eexists _, _; split; [reflexivity|]; split; [reflexivity|];
            unfold token_at, keyword; simpl Ascii.eqb; cbv iota;
            rewrite lookahead_prefix; reflexivity | ]).
  destruct Hin.
Qed.

(** X5: keywords are recognised by prefix alone.  A text that starts
    with the letters of a keyword gets that keyword as its first token,
    whatever follows, whenever tokenizing succeeds. *)
Theorem keyword_prefix_wins :
  forall word k rest tokens,
    In (word, k) keywords ->
    tokenize (word +:+ rest) = Ok tokens ->
    exists more, tokens = mkToken k word :: more.
Proof.
  intros word k rest tokens Hin H.
  destruct (keyword_token word k rest Hin) as (c & thing & -> & Hc & Ht).
  unfold tokenize in H.
  change (String c thing +:+ rest) with (String c (thing +:+ rest)) in H.
  cbn [tokenize_loop String.get] in H. rewrite Hc, Ht in H.
  cbn [mbind result_bind] in H.
  apply tokenize_loop_shape in H as (more & -> & _). simpl. eauto.
Qed.

Lemma keyword_prefix_wins_witness :
  exists more,
    [mkToken TokenKind.IF "if"; mkToken TokenKind.IDENTIFIER "fy";
     mkToken TokenKind.SEMICOLON ";"; mkToken TokenKind.EOF ""]
    = mkToken TokenKind.IF "if" :: more.
Proof.
  apply (keyword_prefix_wins "if" TokenKind.IF "fy;"); [left|]; reflexivity.
Defined.

Lemma get_In s : forall c v,
  String.get c s = Some v -> In v (list_ascii_of_string s).
Proof.
  induction s as [|a s IH]; intros [|c] v H; simpl in *; try discriminate.
  - injection H as ->. by left.
  - right. eauto.
Qed.

(** X6: a text of whitespace only (the empty text included) tokenizes
    to the single EOF token, and running it prints nothing. *)
Theorem blank_text_is_the_empty_program :
  forall s k,
    forallb isspace (list_ascii_of_string s) = true ->
    tokenize s = Ok [mkToken TokenKind.EOF ""]
    /\ run s (2 + k) = Ok [].
Proof.
  intros s k Hs.
  assert (Ht : tokenize s = Ok [mkToken TokenKind.EOF ""]).
  { unfold tokenize.
    assert (G : forall fuel current tokens,
               (String.length s - current < fuel)%nat ->
               tokenize_loop fuel s current tokens
               = Ok (tokens ++ [mkToken TokenKind.EOF ""])%list).
    { induction fuel as [|fuel IH]; intros current tokens Hf; [lia|].
      simpl. destruct (String.get current s) as [v|] eqn:Hget; [|reflexivity].
      pose proof (get_lt _ _ _ Hget).
      apply get_In in Hget.
      rewrite forallb_forall in Hs. rewrite (Hs v Hget). apply IH. lia. }
    apply G. lia. }
  split; [exact Ht|]. unfold run. rewrite Ht. reflexivity.
Qed.

Lemma blank_text_is_the_empty_program_witness :
  tokenize "  " = Ok [mkToken TokenKind.EOF ""] /\ run "  " (2 + 0) = Ok [].
Proof. apply (blank_text_is_the_empty_program "  " 0). reflexivity. Defined.

End TokenizerEdges.

Section SpamInvariants.
Import Spam.

Lemma extends_refl self : extends self self.
Proof.
  split; [reflexivity|]. split; [|reflexivity].
  exists []. by rewrite app_nil_r.
Qed.

Lemma extends_trans a b c : extends a b -> extends b c -> extends a c.
Proof.
  intros (Hl & [m Hm] & Hf) (Hl' & [m' Hm'] & Hf').
  split; [congruence|]. split; [|set_solver].
  exists (m ++ m')%list. by rewrite Hm', Hm, app_assoc.
Qed.

Lemma extends_print v self : extends self (print v self).
Proof. split; [reflexivity|]. split; [by eexists | reflexivity]. Qed.

Lemma extends_define name f self :
  extends self
    (mkInterpreter (locals self) (<[name := f]> (functions self)) (stdout self)).
Proof.
  split; [reflexivity|]. split; cbn.
  - exists []. by rewrite app_nil_r.
  - rewrite dom_insert_L. set_solver.
Qed.

Lemma extends_call self a b l :
  extends self a -> extends (set_locals l a) b ->
  extends self (set_locals (locals self) b).
Proof.
  intros (Hl & [m Hm] & Hf) (_ & [m' Hm'] & Hf'). cbn in *.
  split; [reflexivity|]. split; cbn; [|set_solver].
  exists (m ++ m')%list. by rewrite Hm', Hm, app_assoc.
Qed.

Lemma spam_extends_all n : spam_extends n.
Proof.
  induction n as [|n (Hs & Hx & He & Hc)].
  { repeat apply conj; intros; discriminate. }
  assert (Hfr := extends_refl). assert (Htr := extends_trans).
  repeat apply conj.
  - intros [k s] self r self' H; simpl in H. invert_run H;
      eauto using extends_print, extends_define.
  - intros ast self r self' H; simpl in H. invert_run H; eauto.
  - intros [k v] self r self' H; simpl in H. invert_run H;
      eauto using extends_call.
  - intros items d self d' self' H; simpl in H. invert_run H; eauto.
Qed.

(** X14: a finished run of the prototype's interpreter leaves [locals]
    as they were (a call restores them, and nothing else writes them),
    only appends to the output, and loses no function definition. *)
Theorem prototype_run_keeps_scope :
  forall fuel ast self r self',
    exec fuel ast self = Ok (r, self') ->
    locals self' = locals self
    /\ (exists more, stdout self' = (stdout self ++ more)%list)
    /\ dom (functions self) ⊆ dom (functions self').
Proof. intros fuel ast self r self' H. by apply (spam_extends_all fuel) in H. Qed.

End SpamInvariants.

Section ViperInvariants.
Import Viper.

Lemma grows_refl self : grows self self.
Proof. split; [|reflexivity]. exists []. by rewrite app_nil_r. Qed.

Lemma grows_trans a b c : grows a b -> grows b c -> grows a c.
Proof.
  intros ([m Hm] & Hf) ([m' Hm'] & Hf'). split; [|set_solver].
  exists (m ++ m')%list. by rewrite Hm', Hm, app_assoc.
Qed.

Lemma grows_print v self : grows self (print v self).
Proof. split; [by eexists | reflexivity]. Qed.

Lemma grows_same self self' :
  stdout self' = stdout self -> functions self' = functions self ->
  grows self self'.
Proof.
  intros Ho Hf. split; [|by rewrite Hf]. exists []. by rewrite app_nil_r.
Qed.

Lemma grows_set_locals l self : grows self (set_locals l self).
Proof. by apply grows_same. Qed.

Lemma grows_set_depth d self : grows self (set_depth d self).
Proof. by apply grows_same. Qed.

Lemma grows_store b name v self : grows self (store b name v self).
Proof. destruct b; by apply grows_same. Qed.

Lemma grows_del name self self' : del name self = Ok self' -> grows self self'.
Proof. unfold del. intros H. invert_run H; by apply grows_same. Qed.

Lemma grows_define name f self :
  grows self (set_functions (<[name := f]> (functions self)) self).
Proof.
  split; cbn; [exists []; by rewrite app_nil_r|].
  rewrite dom_insert_L. set_solver.
Qed.

Lemma grows_block d d' self self' :
  grows (set_depth d self) self' -> grows self (set_depth d' self').
Proof.
  intros H. eapply grows_trans; [apply (grows_set_depth d)|].
  eapply grows_trans; [exact H | apply grows_set_depth].
Qed.

Lemma grows_call self a b l l' :
  grows self a -> grows (set_locals l a) b -> grows self (set_locals l' b).
Proof.
  intros Ha Hb. eapply grows_trans; [exact Ha|].
  eapply grows_trans; [apply (grows_set_locals l)|].
  eapply grows_trans; [exact Hb | apply grows_set_locals].
Qed.

Lemma viper_grows_all n : viper_grows n.
Proof.
  induction n as [|n (He & Hc & Hs & Hx & Hw & Hf)].
  { repeat apply conj; intros; discriminate. }
  assert (Hfr := grows_refl). assert (Htr := grows_trans).
  repeat apply conj.
  - intros e self v self' H; simpl in H. invert_run H;
      eauto using grows_store, grows_call.
  - intros items d self d' self' H; simpl in H. invert_run H; eauto.
  - intros s self v self' H; simpl in H. invert_run H;
      eauto using grows_print, grows_define, grows_block;
      eauto 6 using grows_del, grows_store.
  - intros ast self v self' H; simpl in H. invert_run H; eauto.
  - intros c b self self' H; simpl in H. invert_run H; eauto 7.
  - intros c b a self self' H; simpl in H. invert_run H; eauto 9.
Qed.

(** X20: a statement of the package that finishes leaves the depth as
    it was, leaves the globals alone when run below the top level, only
    appends to the output and loses no function definition. *)
Theorem extended_run_invariants :
  forall fuel s self r self',
    Statement_exec fuel s self = Ok (r, self') ->
    depth self' = depth self
    /\ (0 < depth self -> globals self' = globals self)
    /\ (exists more, stdout self' = (stdout self ++ more)%list)
    /\ dom (functions self) ⊆ dom (functions self').
Proof.
  intros fuel s self r self' H.
  pose proof (proj1 (proj2 (proj2 (viper_frame_all fuel))) _ _ _ _ H) as [Hd Hg].
  pose proof (proj1 (proj2 (proj2 (viper_grows_all fuel))) _ _ _ _ H) as [Ho Hf].
  auto.
Qed.

(** X21: after a [for] statement whose initializer assigns [x], [x] is
    no longer defined in the scope the initializer wrote to, also when it
    was defined there before the loop; the statement yields None. *)
Theorem loop_variable_is_gone :
  forall fuel x init condition advancement body self r self',
    Statement_exec fuel
      (ForStatement (AssignExpression (VariableExpression x) init)
         condition advancement body) self
    = Ok (r, self') ->
    r = VNone
    /\ depth self' = depth self
    /\ (if 0 <? depth self then locals self' !! x = None
        else globals self' !! x = None).
Proof.
  intros [|fuel] x init condition advancement body self r self' H;
    [discriminate|].
  pose proof (proj1 (proj2 (proj2 (viper_frame_all _))) _ _ _ _ H) as [Hd _].
  cbn [Statement_exec] in H.
  apply bind_Ok in H as ([? s1] & H1 & H).
  apply bind_Ok in H as (s2 & H2 & H).
  apply bind_Ok in H as (s3 & H3 & H). injection H as <- <-.
  apply (viper_frame_all fuel) in H1 as [Hd1 _].
  apply (viper_frame_all fuel) in H2 as [Hd2 _].
  split; [reflexivity|]. split; [exact Hd|].
  unfold del in H3. rewrite Hd2, Hd1 in H3.
  destruct (0 <? depth self); invert_run H3; cbn; apply lookup_delete_eq.
Qed.

End ViperInvariants.

Section Calls.


Lemma zip_snd_subset {A B} (l : list A) : forall (k : list B) p,
  p ∈ zip l k -> p.2 ∈ k.
Proof.
  induction l as [|a l IH]; intros [|b k] p Hp; simpl in *;
    try by apply elem_of_nil in Hp.
  apply elem_of_cons in Hp as [-> | Hp]; [left | right; eauto].
Qed.

Lemma pure_eval n : forall e self v self',
  pure e = true ->
  Viper.Expression_eval n e self = Ok (v, self') -> self' = self.
Proof.
  induction n as [|n IH]; intros e self v self' Hp H; [discriminate|].
  destruct e; try discriminate; simpl in Hp, H.
  - by injection H as _ <-.
  - invert_run H. reflexivity.
  - apply andb_true_iff in Hp as [Hl Hr].
    invert_run H; [|reflexivity].
    match goal with
    | H1 : Viper.Expression_eval n e1 _ = _,
      H2 : Viper.Expression_eval n e2 _ = _ |- _ =>
        apply IH in H1; [|exact Hl]; subst;
        apply IH in H2; [|exact Hr]; by subst
    end.
Qed.

Lemma viper_comprehension_pure n : forall items d self d' self',
  Forall (fun p => pure p.2 = true) items ->
  Viper.comprehension n items d self = Ok (d', self') -> self' = self.
Proof.
  induction n as [|n IH]; intros items d self d' self' Hp H; [discriminate|].
  simpl in H. destruct items as [|[k e] items]; [by injection H as _ <-|].
  apply Forall_cons in Hp as [He Hp].
  apply bind_Ok in H as ([x s1] & H1 & H).
  apply pure_eval in H1; [|exact He]. subst. eauto.
Qed.



(** X18: a call whose arguments are built from literals, variables and
    operators leaves the caller's locals and the depth as they were,
    whatever the callee does. *)
Theorem call_with_pure_arguments_keeps_locals :
  forall fuel callee args self v self',
    forallb pure args = true ->
    Viper.Expression_eval fuel (Viper.CallExpression callee args) self
    = Ok (v, self') ->
    Viper.locals self' = Viper.locals self
    /\ Viper.depth self' = Viper.depth self.
Proof.
  intros [|fuel] callee args self v self' Hp H; [discriminate|].
  pose proof (Expression_eval_frame _ _ _ _ _ H) as [Hd _].
  split; [|exact Hd].
  cbn [Viper.Expression_eval] in H.
  destruct callee; try discriminate.
  destruct (Viper.functions self !! name) as [[]|]; try discriminate.
  apply bind_Ok in H as (names & Hn & H).
  apply bind_Ok in H as ([d s1] & Hc & H).
  apply bind_Ok in H as ([r s2] & Hb & H). injection H as _ <-.
  apply viper_comprehension_pure in Hc; [by subst|].
  apply Forall_forall. intros p Hin. apply zip_snd_subset in Hin.
  rewrite forallb_forall in Hp. apply Hp. by apply list_elem_of_In.
Qed.



End Calls.

Section PrototypeBlocks.

Lemma match_hit k t tokens :
  Spam.kind t = k -> Spam.match_ [k] (t :: tokens) = Ok (true, tokens).
Proof.
  intros H. cbn. unfold Spam.bind, Spam.check, Spam.consume, Spam.ret.
  rewrite !bool_decide_eq_true_2 by exact H. reflexivity.
Qed.

Lemma match_miss k t tokens :
  Spam.kind t <> k -> Spam.match_ [k] (t :: tokens) = Ok (false, t :: tokens).
Proof.
  intros H. cbn. unfold Spam.bind, Spam.check, Spam.ret.
  rewrite bool_decide_eq_false_2 by exact H. reflexivity.
Qed.

(** X13: whatever statement the prototype's parser builds from tokens
    that start with a left brace is a block, and the prototype's
    interpreter raises AssertionError on it. *)
Theorem prototype_block_cannot_run :
  forall fuel text tokens stmt rest n self,
    Spam.parse_statement fuel
      (Spam.mkToken Spam.TokenKind.LBRACE text :: tokens)
    = Ok (stmt, rest) ->
    (exists body,
        stmt = Spam.mkStatement Spam.StatementKind.BLOCK
                 (Spam.BlockStatement body))
    /\ Spam.exec_stmt (S n) stmt self = Raise AssertionError.
Proof.
  intros [|fuel] text tokens stmt rest n self H; [discriminate|].
  cbn [Spam.parse_statement] in H. unfold Spam.bind at 1 in H.
  rewrite match_miss in H by discriminate.
  unfold Spam.bind at 1 in H. rewrite match_miss in H by discriminate.
  unfold Spam.bind at 1 in H. rewrite match_miss in H by discriminate.
  unfold Spam.bind at 1 in H. rewrite match_miss in H by discriminate.
  unfold Spam.bind at 1 in H. rewrite match_miss in H by discriminate.
  unfold Spam.bind at 1 in H. rewrite match_hit in H by reflexivity.
  unfold Spam.bind at 1 in H.
  destruct (Spam.statements_until_rbrace fuel [] tokens) as [[body rest']| |];
    try discriminate.
  cbn in H. injection H as <- <-. split; [eauto | reflexivity].
Qed.

End PrototypeBlocks.

Section ParserProgress.
Import Spam.

Lemma consumes_keeps_order {A} (p : Parser A) : consumes p -> keeps_order p.
Proof. intros H tokens a rest E. by apply H in E as [? _]. Qed.

Lemma keeps_order_ret {A} (a : A) : keeps_order (ret a).
Proof. intros tokens b rest [= _ <-]. reflexivity. Qed.

Lemma keeps_order_raise {A} e : keeps_order (@raise A e).
Proof. intros tokens b rest H. discriminate. Qed.

Lemma keeps_order_out {A} : keeps_order (@out_of_fuel A).
Proof. intros tokens b rest H. discriminate. Qed.

Lemma consumes_out {A} : consumes (@out_of_fuel A).
Proof. intros tokens b rest H. discriminate. Qed.

Lemma keeps_order_bind {A B} (m : Parser A) (k : A -> Parser B) :
  keeps_order m -> (forall a, keeps_order (k a)) -> keeps_order (bind m k).
Proof.
  intros Hm Hk tokens b rest H. unfold bind in H.
  destruct (m tokens) as [[a mid]| |] eqn:E; try discriminate.
  apply Hm in E. apply Hk in H. by etrans.
Qed.

Lemma consumes_bind_l {A B} (m : Parser A) (k : A -> Parser B) :
  consumes m -> (forall a, keeps_order (k a)) -> consumes (bind m k).
Proof.
  intros Hm Hk tokens b rest H. unfold bind in H.
  destruct (m tokens) as [[a mid]| |] eqn:E; try discriminate.
  apply Hm in E as [E1 E2]. apply Hk in H.
  split; [by etrans|]. apply suffix_length in H. lia.
Qed.

Lemma consumes_bind_r {A B} (m : Parser A) (k : A -> Parser B) :
  keeps_order m -> (forall a, consumes (k a)) -> consumes (bind m k).
Proof.
  intros Hm Hk tokens b rest H. unfold bind in H.
  destruct (m tokens) as [[a mid]| |] eqn:E; try discriminate.
  apply Hm in E. apply Hk in H as [H1 H2].
  split; [by etrans|]. apply suffix_length in E. lia.
Qed.

Lemma consumes_consume k : consumes (consume k).
Proof.
  intros [|t tokens] a rest H; [discriminate|]. simpl in H.
  assert (rest = tokens) as ->.
  { destruct k; [destruct (bool_decide _)|]; congruence. }
  split; [apply suffix_cons_r; reflexivity | simpl; lia].
Qed.

Lemma keeps_order_check k : keeps_order (check k).
Proof.
  intros [|t tokens] a rest H; [discriminate|]. by injection H as _ <-.
Qed.

Lemma keeps_order_next_token_precedence : keeps_order next_token_precedence.
Proof. intros [|t tokens] a rest [= _ <-]; reflexivity. Qed.

Lemma keeps_order_match kinds : keeps_order (match_ kinds).
Proof.
  induction kinds as [|k kinds IH]; simpl; [apply keeps_order_ret|].
  apply keeps_order_bind; [apply keeps_order_check|]. intros [|]; [|exact IH].
  apply keeps_order_bind; [apply consumes_keeps_order, consumes_consume|].
  intros _. apply keeps_order_ret.
Qed.

Lemma keeps_order_prefix p token : keeps_order (PrefixParselet_parse p token).
Proof.
  destruct p; simpl; [|apply keeps_order_ret].
  destruct (float_of_str _);
    [apply keeps_order_ret | apply keeps_order_raise | apply keeps_order_out].
Qed.

Lemma keeps_order_binary_node token left right :
  keeps_order (binary_node token left right).
Proof.
  unfold binary_node.
  repeat match goal with
  | |- keeps_order (if ?b then _ else _) => destruct b
  end; first [apply keeps_order_ret | apply keeps_order_raise].
Qed.

Ltac progress_step :=
  repeat first
    [ apply keeps_order_ret | apply keeps_order_raise | apply keeps_order_out
    | apply consumes_out | apply consumes_consume
    | apply keeps_order_check | apply keeps_order_match
    | apply keeps_order_next_token_precedence
    | apply keeps_order_prefix | apply keeps_order_binary_node
    | assumption
    | apply consumes_keeps_order; assumption
    | apply consumes_keeps_order, consumes_consume
    | match goal with
      | H : forall _, consumes _ |- _ => apply H
      | H : forall _, keeps_order _ |- _ => apply H
      | H : forall _ _, keeps_order _ |- _ => apply H
      | H : forall _ _ _, keeps_order _ |- _ => apply H
      | H : forall _, consumes _ |- keeps_order _ =>
          apply consumes_keeps_order, H
      | |- keeps_order (match ?x with _ => _ end) => destruct x
      | |- keeps_order (if ?b then _ else _) => destruct b
      | |- consumes (match ?x with _ => _ end) => destruct x
      | |- consumes (if ?b then _ else _) => destruct b
      | |- keeps_order (bind _ _) => apply keeps_order_bind; [ | intros ? ]
      end ].

Lemma expression_progress_all n : expression_progress n.
Proof.
  induction n as [|n (He & Hi & Hp & Hc)].
  { repeat apply conj; intros; first [apply consumes_out | apply keeps_order_out]. }
  repeat apply conj.
  - intros q. simpl. apply consumes_bind_l; [apply consumes_consume|].
    intros token. progress_step.
  - intros q left. simpl. progress_step.
  - intros p left token. simpl. progress_step.
  - intros args. simpl. apply consumes_bind_l; [apply He|].
    intros arg. progress_step.
Qed.

Lemma consumes_parse_expression n q : consumes (parse_expression n q).
Proof. apply (expression_progress_all n). Qed.

Lemma consumes_expression_then_semicolon n :
  consumes (expression_then_semicolon n).
Proof.
  unfold expression_then_semicolon.
  apply consumes_bind_l; [apply consumes_parse_expression|].
  intros e. progress_step.
Qed.

Lemma keeps_order_fn_arguments n : forall args,
  keeps_order (fn_arguments n args).
Proof.
  induction n as [|n IH]; intros args; simpl; [apply keeps_order_out|].
  pose proof (consumes_parse_expression n 0). progress_step.
Qed.

Lemma match_one k tokens b rest :
  match_ [k] tokens = Ok (b, rest) ->
  if b then rest `suffix_of` tokens /\ (length rest < length tokens)%nat
  else rest = tokens.
Proof.
  destruct tokens as [|t tokens]; [discriminate|].
  cbn. unfold bind, check, consume, ret.
  destruct (decide (kind t = k)) as [E|E].
  - rewrite !bool_decide_eq_true_2 by exact E. intros [= <- <-].
    split; [apply suffix_cons_r; reflexivity | simpl; lia].
  - rewrite bool_decide_eq_false_2 by exact E. by intros [= <- <-].
Qed.

(** [if self.match([k]): P  else: Q] takes a token when [Q] does. *)
Lemma consumes_on_match {A} k (P Q : Parser A) :
  keeps_order P -> consumes Q ->
  consumes (bind (match_ [k]) (fun b => if b then P else Q)).
Proof.
  intros HP HQ tokens a rest H. unfold bind in H.
  destruct (match_ [k] tokens) as [[[|] mid]| |] eqn:E; try discriminate;
    apply match_one in E.
  - destruct E as [E1 E2]. apply HP in H.
    split; [by etrans|]. apply suffix_length in H. lia.
  - subst. exact (HQ _ _ _ H).
Qed.

Lemma statement_progress_all n : statement_progress n.
Proof.
  induction n as [|n [Hs Hb]].
  { split; intros; first [apply consumes_out | apply keeps_order_out]. }
  pose proof (consumes_expression_then_semicolon n) as Hx.
  pose proof (consumes_parse_expression n) as He.
  pose proof (keeps_order_fn_arguments n) as Ha.
  split.
  - simpl. unfold parse_let_statement, parse_print_statement,
      parse_return_statement, parse_expression_statement.
    repeat (apply consumes_on_match; [progress_step|]).
    apply consumes_bind_l; [exact Hx|]. intros e. progress_step.
  - intros body. simpl. progress_step.
Qed.

(** X7: a statement the prototype's parser accepts is read from the
    front of the token list: the tokens left are a suffix of the tokens
    given, and at least one token was taken. *)
Theorem parser_takes_tokens_from_the_front :
  forall fuel tokens stmt rest,
    parse_statement fuel tokens = Ok (stmt, rest) ->
    exists taken, taken <> [] /\ tokens = (taken ++ rest)%list.
Proof.
  intros fuel tokens stmt rest H.
  apply (statement_progress_all fuel) in H as [[taken ->] Hlen].
  exists taken. split; [|reflexivity].
  intros ->. simpl in Hlen. lia.
Qed.

End ParserProgress.

Section ParsersAgree.
Import Viper.Parsing.

Lemma no_paren_suffix rest tokens :
  rest `suffix_of` tokens -> Forall no_paren tokens -> Forall no_paren rest.
Proof. intros [k ->] H. by apply Forall_app in H as [_ H]. Qed.

Lemma binary_node_agrees token left right tokens :
  binary_node (up token) (extended left) (extended right) (map up tokens)
  = carried extended (Spam.binary_node token left right tokens).
Proof.
  unfold binary_node, Spam.binary_node. cbn [up value].
  repeat match goal with
  | |- context [String.eqb ?a ?b] => destruct (String.eqb a b); [reflexivity|]
  end.
  reflexivity.
Qed.

Lemma parsers_agree_all n : parsers_agree n.
Proof.
  induction n as [|n (He & Hi & Hp)].
  { repeat apply conj; intros; reflexivity. }
  repeat apply conj.
  - intros q [|t tokens] Hn; [reflexivity|].
    apply Forall_cons in Hn as [_ Hn].
    cbn [map parse_expression Spam.parse_expression].
    unfold bind at 1, Spam.bind at 1. cbn [consume Spam.consume].
    destruct t as [k v]. 
    destruct k; cbn; try reflexivity.
    + destruct (float_of_str v) as [f| |]; cbn; try reflexivity.
      exact (Hi q (Spam.mkExpression Spam.ExpressionKind.LITERAL
                     (Spam.LiteralExpression f)) tokens Hn).
    + exact (Hi q (Spam.mkExpression Spam.ExpressionKind.VARIABLE
                     (Spam.VariableExpression v)) tokens Hn).
  - intros q left [|t tokens] Hn.
    { cbn. destruct (q <? 0); reflexivity. }
    apply Forall_cons in Hn as [Ht Hn].
    cbn [map infix_loop Spam.infix_loop].
    unfold bind at 1, Spam.bind at 1.
    cbn [next_token_precedence Spam.next_token_precedence].
    assert (Hprec : precedence (kind (up t)) = Spam.precedence (Spam.kind t)).
    { destruct t as [[] v]; reflexivity. }
    rewrite Hprec.
    destruct (q <? default 0 (Spam.precedence (Spam.kind t))); [|reflexivity].
    unfold bind at 1, Spam.bind at 1. cbn [consume Spam.consume].
    destruct (Spam.infix_parselets (Spam.kind t)) as [[]|] eqn:Ep.
    + destruct t as [[] v]; try discriminate. by destruct Ht.
    + assert (infix_parselets (kind (up t)) = Some BinaryOperatorParselet) as ->.
      { destruct t as [[] v]; try discriminate; reflexivity. }
      unfold bind at 1, Spam.bind at 1. rewrite (Hp left t tokens Hn).
      destruct (Spam.InfixParselet_parse n _ left t tokens)
        as [[left' rest]| |] eqn:E; cbn [carried]; try reflexivity.
      apply Hi. eapply no_paren_suffix; [|exact Hn].
      exact (proj1 (proj2 (proj2 (expression_progress_all n))) _ _ _ _ _ _ E).
    + assert (infix_parselets (kind (up t)) = None) as ->.
      { destruct t as [[] v]; try discriminate; reflexivity. }
      reflexivity.
  - intros left token tokens Hn.
    cbn [InfixParselet_parse Spam.InfixParselet_parse].
    assert (Hprec : precedence (kind (up token))
                    = Spam.precedence (Spam.kind token)).
    { destruct token as [[] v]; reflexivity. }
    rewrite Hprec. destruct (Spam.precedence (Spam.kind token)) as [q|];
      [|reflexivity].
    unfold bind at 1, Spam.bind at 1. rewrite (He q tokens Hn).
    destruct (Spam.parse_expression n q tokens) as [[right rest]| |];
      cbn [carried]; try reflexivity.
    apply binary_node_agrees.
Qed.

(** X11: on token lists without parentheses the expression parsers of
    the prototype and of the package agree: same tokens left, same
    exception, and the package's tree is the translation of the
    prototype's. *)
Theorem parsers_agree_on_call_free_expressions :
  forall fuel q tokens,
    Forall no_paren tokens ->
    parse_expression fuel q (map up tokens)
    = carried extended (Spam.parse_expression fuel q tokens).
Proof. intros fuel q tokens H. by apply (parsers_agree_all fuel). Qed.

End ParsersAgree.

Section ViperParserFuel.
Import Viper.Parsing.

Lemma vmono_refl {A} (p : Parser A) : vmono p p.
Proof. intros tokens. apply mono_refl. Qed.

Lemma vmono_out {A} (p : Parser A) : vmono out_of_fuel p.
Proof. intros tokens. apply mono_out. Qed.

Lemma vmono_bind {A B} (m m' : Parser A) (k k' : A -> Parser B) :
  vmono m m' -> (forall a, vmono (k a) (k' a)) ->
  vmono (bind m k) (bind m' k').
Proof.
  intros Hm Hk tokens. unfold bind. specialize (Hm tokens).
  destruct (m tokens) as [[a rest]| e |].
  - rewrite Hm by discriminate. apply Hk.
  - rewrite Hm by discriminate. apply mono_refl.
  - apply mono_out.
Qed.

Ltac vmono_step :=
  repeat first
    [ apply vmono_refl
    | apply vmono_out
    | progress auto
    | apply vmono_bind; [ | intros ? ]
    | match goal with
      | |- vmono (match ?x with _ => _ end) (match ?x with _ => _ end) =>
          destruct x
      | |- vmono (if ?b then _ else _) (if ?b then _ else _) => destruct b
      end ].

Lemma extended_expression_mono_S n m :
  extended_expression_mono n m -> extended_expression_mono (S n) (S m).
Proof.
  intros (He & Hi & Hp & Hc). repeat apply conj.
  - intros q; simpl. vmono_step.
  - intros q left; simpl. vmono_step.
  - intros p left token; simpl. vmono_step.
  - intros args; simpl. vmono_step.
Qed.

Lemma extended_expression_mono_le n :
  forall m, (n <= m)%nat -> extended_expression_mono n m.
Proof.
  induction n as [|n IH]; intros m Hle.
  - repeat apply conj; intros; apply vmono_out.
  - destruct m as [|m]; [lia|]. apply extended_expression_mono_S, IH. lia.
Qed.

Lemma extended_statement_mono_le n :
  forall m, (n <= m)%nat -> extended_statement_mono n m.
Proof.
  induction n as [|n IH]; intros m Hle.
  - split; intros; apply vmono_out.
  - destruct m as [|m]; [lia|].
    destruct (IH m ltac:(lia)) as [Hs Hb].
    destruct (extended_expression_mono_le n m ltac:(lia)) as (He & _ & _ & Hc).
    assert (Hx : vmono (expression_then_semicolon n)
                   (expression_then_semicolon m)).
    { unfold expression_then_semicolon. vmono_step. }
    split; [|intros body]; simpl;
      unfold parse_let_statement, parse_print_statement,
        parse_return_statement, parse_expression_statement;
      vmono_step.
Qed.

Lemma extended_parse_mono n : forall m tokens,
  (n <= m)%nat -> mono (parse n tokens) (parse m tokens).
Proof.
  intros m tokens Hle. unfold parse.
  apply mono_bind; [|intros [? ?]; apply mono_refl].
  revert m Hle tokens. generalize (@nil Viper.Statement) as ast. revert n.
  induction n as [|n IH]; intros ast m Hle tokens; [apply mono_out|].
  destruct m as [|m]; [lia|]. simpl.
  apply vmono_bind; [apply vmono_refl|]. intros [|]; [apply vmono_refl|].
  apply vmono_bind; [apply (extended_statement_mono_le n m); lia|].
  intros a tokens'. apply IH. lia.
Qed.

End ViperParserFuel.

Section EmptyCalls.

Lemma prototype_parse_mono n m tokens :
  (n <= m)%nat -> mono (Spam.parse n tokens) (Spam.parse m tokens).
Proof.
  intros Hle. unfold Spam.parse.
  apply mono_bind; [ by apply parse_loop_mono | intros [? ?]; apply mono_refl ].
Qed.

(** X9: in the prototype, [name();] is refused by the parser and
    [name());] is a call without arguments: [CallParselet.parse] takes one
    right parenthesis in [match] and asks for another with [consume]. *)
Theorem prototype_empty_call_takes_two_parentheses :
  forall name k,
    Spam.parse (8 + k) (empty_call name 1) = Raise AssertionError
    /\ Spam.parse (8 + k) (empty_call name 2)
       = Ok [Spam.mkStatement Spam.StatementKind.EXPRESSION
               (Spam.ExpressionStatement
                  (Spam.mkExpression Spam.ExpressionKind.CALL
                     (Spam.CallExpression (variable name) [])))].
Proof.
  intros name k. split.
  - eapply mono_raise; [apply (prototype_parse_mono 8 (8 + k)); lia|].
    reflexivity.
  - eapply mono_ok; [apply (prototype_parse_mono 8 (8 + k)); lia|].
    reflexivity.
Qed.

(** X10: in the package, [name();] parses to a call without arguments:
    [CallParselet.parse] returns as soon as [match] has taken the right
    parenthesis. *)
Theorem extended_empty_call_parses :
  forall name k,
    Viper.Parsing.parse (8 + k) (map up (empty_call name 1))
    = Ok [Viper.ExpressionStatement
            (Viper.CallExpression (Viper.VariableExpression name) [])].
Proof.
  intros name k.
  eapply mono_ok; [apply (extended_parse_mono 8 (8 + k)); lia|].
  reflexivity.
Qed.

(** X12: [a = b = c;] is accepted by the package's parser, as the
    assignment of [c] to the expression [a = b], and running it raises
    AssertionError, since [AssignExpression.eval] wants a name on the
    left. *)
Theorem chained_assignment_is_fatal :
  forall a b c k n self,
    let stmt :=
      Viper.ExpressionStatement
        (Viper.AssignExpression
           (Viper.AssignExpression
              (Viper.VariableExpression a) (Viper.VariableExpression b))
           (Viper.VariableExpression c)) in
    Viper.Parsing.parse (10 + k) (chained_assignment a b c) = Ok [stmt]
    /\ Viper.Statement_exec (2 + n) stmt self = Raise AssertionError.
Proof.
  intros a b c k n self stmt. split; [|reflexivity].
  eapply mono_ok; [apply (extended_parse_mono 10 (10 + k)); lia|].
  reflexivity.
Qed.

End EmptyCalls.

Section LeftAssociative.
Import Spam.

Lemma operators_bind op node :
  In (op, node) operators -> exists q, binds op q node.
Proof.
  intros Hin. simpl in Hin.
  repeat (destruct Hin as [[= <- <-] | Hin];
          [ eexists; repeat apply conj; try reflexivity; lia | ]).
  destruct Hin.
Qed.

(** A name whose next token does not bind tighter than [q] is an operand
    on its own. *)
Lemma parse_operand f q x t more :
  default 0 (precedence (kind t)) <= q ->
  parse_expression (S (S f)) q (name_token x :: t :: more)
  = Ok (variable x, t :: more).
Proof.
  intros H. cbn [parse_expression infix_loop].
  unfold bind, consume, ret, next_token_precedence; cbn.
  rewrite (proj2 (Z.ltb_ge _ _) H). reflexivity.
Qed.

Lemma infix_loop_S f q left tokens :
  infix_loop (S f) q left tokens
  = match tokens with
    | [] => if q <? 0 then Raise AssertionError else Ok (left, [])
    | t :: tokens' =>
        if q <? default 0 (precedence (kind t)) then
          match infix_parselets (kind t) with
          | None => Raise AssertionError
          | Some infix_parselet =>
              match InfixParselet_parse f infix_parselet left t tokens' with
              | Ok (left', rest) => infix_loop f q left' rest
              | Raise e => Raise e
              | OutOfFuel => OutOfFuel
              end
          end
        else Ok (left, tokens)
    end.
Proof.
  destruct tokens as [|t tokens']; cbn [infix_loop];
    unfold bind, next_token_precedence, consume, ret, raise; cbn.
  - destruct (q <? 0); reflexivity.
  - destruct (q <? default 0 (precedence (kind t))); [|reflexivity].
    destruct (infix_parselets (kind t)); reflexivity.
Qed.

Lemma binary_parselet_S f left op tokens :
  InfixParselet_parse (S f) BinaryOperatorParselet left op tokens
  = match precedence (kind op) with
    | None => Raise KeyError
    | Some q =>
        match parse_expression f q tokens with
        | Ok (rhs, rest) => binary_node op left rhs rest
        | Raise e => Raise e
        | OutOfFuel => OutOfFuel
        end
    end.
Proof.
  cbn [InfixParselet_parse]. destruct (precedence (kind op)); reflexivity.
Qed.

Lemma parse_chain op q node stop rest :
  binds op q node ->
  precedence (kind stop) = None ->
  forall xs left j,
    infix_loop (length xs + 4 + j) 0 left (chain op xs ++ stop :: rest)%list
    = Ok (fold_left (fun acc x => node acc (variable x)) xs left,
          stop :: rest).
Proof.
  intros (Hq & Hpos & Hp & Hnode) Hstop.
  induction xs as [|x xs IH]; intros left j.
  - replace (length (@nil string) + 4 + j)%nat with (S (3 + j)) by (simpl; lia).
    cbn [chain flat_map app fold_left]. rewrite infix_loop_S, Hstop.
    reflexivity.
  - replace (length (x :: xs) + 4 + j)%nat
      with (S (S (S (S (length xs + 1 + j))))) by (simpl; lia).
    cbn [chain flat_map app fold_left].
    change (flat_map (fun x => [op; name_token x]) xs) with (chain op xs).
    rewrite infix_loop_S, Hq, Hp.
    change (default 0 (Some q)) with q. rewrite (proj2 (Z.ltb_lt _ _) Hpos).
    rewrite binary_parselet_S, Hq.
    assert (Hnext : exists t more,
               (chain op xs ++ stop :: rest)%list = t :: more
               /\ default 0 (precedence (kind t)) <= q).
    { destruct xs as [|y ys]; cbn; eexists _, _; (split; [reflexivity|]);
        [rewrite Hstop | rewrite Hq]; cbn; lia. }
    destruct Hnext as (t & more & E & Ht). rewrite E.
    rewrite (parse_operand _ q x t more Ht), <- E, Hnode.
    replace (S (S (S (length xs + 1 + j)))) with (length xs + 4 + j)%nat by lia.
    apply IH.
Qed.

(** X8: a chain [x0 op x1 op ... op xn] of one binary operator (any of
    the six, assignment included), followed by a token whose kind has no
    entry in the precedence table, parses to the left-nested tree and
    leaves that token. *)
Theorem operators_associate_to_the_left :
  forall op node x0 xs stop rest j,
    In (op, node) operators ->
    precedence (kind stop) = None ->
    parse_expression (length xs + 5 + j) 0
      (name_token x0 :: chain op xs ++ stop :: rest)%list
    = Ok (left_nested node x0 xs, stop :: rest).
Proof.
  intros op node x0 xs stop rest j Hin Hstop.
  destruct (operators_bind op node Hin) as [q Hb].
  replace (length xs + 5 + j)%nat with (S (length xs + 4 + j)) by lia.
  cbn [parse_expression]. unfold bind at 1. cbn.
  by apply parse_chain with (q := q).
Qed.

Lemma operators_associate_to_the_left_witness :
  parse_expression (2 + 5 + 0) 0
    (name_token "a"
     :: chain (mkToken TokenKind.MINUS "-") ["b"; "c"]
     ++ mkToken TokenKind.SEMICOLON ";" :: [mkToken TokenKind.EOF ""])%list
  = Ok (binary BinaryExpressionKind.SUB
          (binary BinaryExpressionKind.SUB (variable "a") (variable "b"))
          (variable "c"),
        [mkToken TokenKind.SEMICOLON ";"; mkToken TokenKind.EOF ""]).
Proof.
  apply (operators_associate_to_the_left (mkToken TokenKind.MINUS "-")
           (binary BinaryExpressionKind.SUB) "a" ["b"; "c"]);
    [ right; left; reflexivity | reflexivity ].
Defined.

End LeftAssociative.

Section Instances.

(** The trees of the two implementations for an arithmetic expression
    correspond under the translation of the parsers' agreement. *)
Lemma extended_prototype_tree a : extended (prototype_tree a) = extended_tree a.
Proof.
  induction a as [f|op lhs IHl rhs IHr]; [reflexivity|].
  cbn. rewrite IHl, IHr. by destruct op.
Qed.

(** The tokens of [for (let i = 0; i < 3; i = i + 1) { print i; }] parse
    to the loop of the theorem on counting. *)
Lemma counting_loop_parses :
  let tok := Viper.Parsing.mkToken in
  Viper.Parsing.parse 12
    [tok Viper.Parsing.TokenKind.FOR "for";
     tok Viper.Parsing.TokenKind.LPAREN "(";
     tok Viper.Parsing.TokenKind.LET "let";
     tok Viper.Parsing.TokenKind.IDENTIFIER "i";
     tok Viper.Parsing.TokenKind.EQUAL "=";
     tok Viper.Parsing.TokenKind.NUMBER "0";
     tok Viper.Parsing.TokenKind.SEMICOLON ";";
     tok Viper.Parsing.TokenKind.IDENTIFIER "i";
     tok Viper.Parsing.TokenKind.LT "<";
     tok Viper.Parsing.TokenKind.NUMBER "3";
     tok Viper.Parsing.TokenKind.SEMICOLON ";";
     tok Viper.Parsing.TokenKind.IDENTIFIER "i";
     tok Viper.Parsing.TokenKind.EQUAL "=";
     tok Viper.Parsing.TokenKind.IDENTIFIER "i";
     tok Viper.Parsing.TokenKind.PLUS "+";
     tok Viper.Parsing.TokenKind.NUMBER "1";
     tok Viper.Parsing.TokenKind.RPAREN ")";
     tok Viper.Parsing.TokenKind.LBRACE "{";
     tok Viper.Parsing.TokenKind.PRINT "print";
     tok Viper.Parsing.TokenKind.IDENTIFIER "i";
     tok Viper.Parsing.TokenKind.SEMICOLON ";";
     tok Viper.Parsing.TokenKind.RBRACE "}";
     tok Viper.Parsing.TokenKind.EOF ""]
  = Ok [counting_loop].
Proof. reflexivity. Qed.

Lemma parser_takes_tokens_from_the_front_witness :
  let tokens :=
    [Spam.mkToken Spam.TokenKind.IDENTIFIER "x";
     Spam.mkToken Spam.TokenKind.SEMICOLON ";";
     Spam.mkToken Spam.TokenKind.EOF ""] in
  exists taken,
    taken <> [] /\ tokens = (taken ++ [Spam.mkToken Spam.TokenKind.EOF ""])%list.
Proof.
  intros tokens.
  apply (parser_takes_tokens_from_the_front 4 tokens
           (Spam.mkStatement Spam.StatementKind.EXPRESSION
              (Spam.ExpressionStatement (variable "x")))).
  reflexivity.
Defined.

Lemma parsers_agree_on_call_free_expressions_witness :
  let tokens :=
    [Spam.mkToken Spam.TokenKind.NUMBER "1";
     Spam.mkToken Spam.TokenKind.PLUS "+";
     Spam.mkToken Spam.TokenKind.NUMBER "2";
     Spam.mkToken Spam.TokenKind.SEMICOLON ";"] in
  Viper.Parsing.parse_expression 6 0 (map up tokens)
  = carried extended (Spam.parse_expression 6 0 tokens).
Proof.
  intros tokens.
  apply (parsers_agree_on_call_free_expressions 6 0 tokens).
  repeat constructor; discriminate.
Defined.

Lemma prototype_block_cannot_run_witness :
  let stmt := Spam.mkStatement Spam.StatementKind.BLOCK (Spam.BlockStatement []) in
  (exists body,
      stmt = Spam.mkStatement Spam.StatementKind.BLOCK (Spam.BlockStatement body))
  /\ Spam.exec_stmt (S 0) stmt (Spam.mkInterpreter ∅ ∅ []) = Raise AssertionError.
Proof.
  intros stmt.
  apply (prototype_block_cannot_run 3 "{"
           [Spam.mkToken Spam.TokenKind.RBRACE "}"] stmt []).
  reflexivity.
Defined.

Lemma prototype_run_keeps_scope_witness :
  let self := Spam.mkInterpreter {["n" := VFloat (float_of_Z 2)]} ∅ [] in
  let self' :=
    Spam.mkInterpreter {["n" := VFloat (float_of_Z 2)]} ∅
      [VFloat (float_of_Z 2)] in
  Spam.locals self' = Spam.locals self
  /\ (exists more, Spam.stdout self' = (Spam.stdout self ++ more)%list)
  /\ dom (Spam.functions self) ⊆ dom (Spam.functions self').
Proof.
  intros self self'.
  apply (prototype_run_keeps_scope 4
           [Spam.mkStatement Spam.StatementKind.PRINT
              (Spam.PrintStatement (variable "n"))] self VNone self').
  reflexivity.
Defined.



(** [fn f(a) { y = 3; print y; }] called as [f(1)] inside a block where
    [y] is a local: the caller's [y] is still 0 after the call. *)
Lemma call_with_pure_arguments_keeps_locals_witness :
  let f :=
    Viper.FnStatement "f" [Viper.VariableExpression "a"]
      (Viper.BlockStatement
         [Viper.ExpressionStatement
            (Viper.AssignExpression (Viper.VariableExpression "y") (lit 3));
          Viper.PrintStatement (Viper.VariableExpression "y")]) in
  let zero := VFloat (float_of_Z 0) in
  let self := Viper.mkInterpreter ∅ {["y" := zero]} {["f" := f]} 1 [] in
  let self' :=
    Viper.mkInterpreter ∅ {["y" := zero]} {["f" := f]} 1
      [VFloat (float_of_Z 3)] in
  Viper.locals self' = Viper.locals self
  /\ Viper.depth self' = Viper.depth self.
Proof.
  intros f zero self self'.
  apply (call_with_pure_arguments_keeps_locals 8
           (Viper.VariableExpression "f") [lit 1] self VNone self');
    reflexivity.
Defined.

Lemma extended_run_invariants_witness :
  let self := Viper.mkInterpreter ∅ ∅ ∅ 0 [] in
  let self' := Viper.mkInterpreter ∅ ∅ ∅ 0 [VFloat (float_of_Z 1)] in
  Viper.depth self' = Viper.depth self
  /\ (0 < Viper.depth self -> Viper.globals self' = Viper.globals self)
  /\ (exists more, Viper.stdout self' = (Viper.stdout self ++ more)%list)
  /\ dom (Viper.functions self) ⊆ dom (Viper.functions self').
Proof.
  intros self self'.
  apply (extended_run_invariants 4
           (Viper.BlockStatement [Viper.PrintStatement (lit 1)])
           self VNone self').
  reflexivity.
Defined.

(** A global [i] that exists before the loop does not survive it. *)
Lemma loop_variable_is_gone_witness :
  let self := Viper.mkInterpreter {["i" := VFloat (float_of_Z 7)]} ∅ ∅ 0 [] in
  let self' :=
    Viper.mkInterpreter ∅ ∅ ∅ 0
      [VFloat (float_of_Z 0); VFloat (float_of_Z 1); VFloat (float_of_Z 2)] in
  VNone = VNone
  /\ Viper.depth self' = Viper.depth self
  /\ (if 0 <? Viper.depth self then Viper.locals self' !! "i" = None
      else Viper.globals self' !! "i" = None).
Proof.
  intros self self'.
  apply (loop_variable_is_gone 8 "i" (lit 0) i_below_3 i_plus_1 print_i
           self VNone self').
  vm_compute. reflexivity.
Defined.

End Instances.

Section LastToken.
Import Spam.

Lemma token_at_plain_letter source current c :
  plain_letter c = true ->
  token_at source current c = identifier source current.
Proof.
  unfold plain_letter, token_at. intros H.
  apply andb_true_iff in H as [Ha Hk]. apply negb_true_iff in Hk.
  cbn in Hk. repeat (apply orb_false_iff in Hk as [? Hk]).
  repeat match goal with H : Ascii.eqb c _ = false |- _ => rewrite H; clear H end.
  by rewrite Ha.
Qed.

Lemma letters_are_not_spaces c : isalpha c = true -> isspace c = false.
Proof. destruct c as [[] [] [] [] [] [] [] []]; vm_compute; congruence. Qed.

Lemma digits_are_not_spaces c : isdigit c = true -> isspace c = false.
Proof. destruct c as [[] [] [] [] [] [] [] []]; vm_compute; congruence. Qed.

Lemma token_at_digit source current c :
  isdigit c = true -> token_at source current c = number source current.
Proof.
  destruct c as [[] [] [] [] [] [] [] []]; vm_compute isdigit;
    intros H; try discriminate; reflexivity.
Qed.

Lemma suffix_0 s : suffix s 0 = s.
Proof.
  unfold suffix, slice. rewrite Nat.sub_0_r.
  induction s as [|a s IH]; simpl; [reflexivity | by rewrite IH].
Qed.

(** X4: a text that is nothing but one name (a letter that starts no
    keyword, followed by letters, digits and underscores) or nothing but
    digits makes the tokenizer raise IndexError: the scanning loops of
    [identifier] and [number] have no end-of-text test. *)
Theorem lone_name_or_number_raises :
  forall c rest,
    (plain_letter c = true
     /\ forallb is_identifier_char (list_ascii_of_string rest) = true)
    \/ (isdigit c = true
        /\ forallb isdigit (list_ascii_of_string rest) = true) ->
    tokenize (String c rest) = Raise IndexError.
Proof.
  intros c rest H. unfold tokenize. cbn [tokenize_loop String.get].
  destruct H as [[Hc Hrest] | [Hc Hrest]].
  - assert (Ha : isalpha c = true).
    { unfold plain_letter in Hc. by apply andb_true_iff in Hc as [? _]. }
    rewrite (letters_are_not_spaces c Ha), (token_at_plain_letter _ _ _ Hc).
    unfold identifier. rewrite suffix_0, scan_runs_off_the_end; [reflexivity|].
    simpl. unfold is_identifier_char at 1. by rewrite Ha, Hrest.
  - rewrite (digits_are_not_spaces c Hc), (token_at_digit _ _ _ Hc).
    unfold number. rewrite suffix_0, scan_runs_off_the_end; [reflexivity|].
    simpl. by rewrite Hc, Hrest.
Qed.

Lemma lone_name_or_number_raises_witness :
  tokenize "x1" = Raise IndexError /\ tokenize "42" = Raise IndexError.
Proof.
  split.
  - apply (lone_name_or_number_raises "x" "1"). left. split; reflexivity.
  - apply (lone_name_or_number_raises "4" "2"). right. split; reflexivity.
Defined.

End LastToken.

Section FunctionsAndGlobals.
Import Viper.

(** X19: a function whose body is a block cannot change a global:
    inside the block every assignment writes a local, so after the call
    the globals are the caller's. *)
Theorem block_bodied_function_keeps_globals :
  forall fuel f args self name params body v self',
    functions self !! f = Some (FnStatement name params (BlockStatement body)) ->
    0 <= depth self ->
    forallb pure args = true ->
    Expression_eval fuel (CallExpression (VariableExpression f) args) self
    = Ok (v, self') ->
    globals self' = globals self.
Proof.
  intros [|fuel] f args self name params body v self' Hf Hd Hp H;
    [discriminate|].
  cbn [Expression_eval] in H. rewrite Hf in H.
  apply bind_Ok in H as (names & Hn & H).
  apply bind_Ok in H as ([d s1] & Hc & H).
  apply bind_Ok in H as ([r s2] & Hb & H). injection H as _ <-.
  assert (s1 = self) as ->.
  { eapply viper_comprehension_pure; [|exact Hc].
    apply Forall_forall. intros p Hin. apply zip_snd_subset in Hin.
    rewrite forallb_forall in Hp. apply Hp. by apply list_elem_of_In. }
  destruct fuel as [|fuel]; [discriminate|].
  cbn [Statement_exec] in Hb.
  apply bind_Ok in Hb as ([r' s3] & Hx & Hb). injection Hb as _ <-.
  apply _exec_frame in Hx as [_ Hg]. cbn in *. apply Hg. lia.
Qed.

(** [x = 1] is a global; [fn f() { x = 2; print x; }] prints 2 and the
    global is still 1. *)
Lemma block_bodied_function_keeps_globals_witness :
  let f :=
    FnStatement "f" []
      (BlockStatement
         [ExpressionStatement (AssignExpression (VariableExpression "x") (lit 2));
          PrintStatement (VariableExpression "x")]) in
  let one := VFloat (float_of_Z 1) in
  let self := mkInterpreter {["x" := one]} ∅ {["f" := f]} 0 [] in
  let self' := mkInterpreter {["x" := one]} ∅ {["f" := f]} 0 [VFloat (float_of_Z 2)] in
  globals self' = globals self.
Proof.
  intros f one self self'.
  apply (block_bodied_function_keeps_globals 8 "f" [] self "f" []
           [ExpressionStatement (AssignExpression (VariableExpression "x") (lit 2));
            PrintStatement (VariableExpression "x")] VNone self');
    [ reflexivity | cbn; lia | reflexivity | reflexivity ].
Defined.

End FunctionsAndGlobals.

Section Sequencing.

Lemma exec_S k stmt rest self :
  Spam.exec (S k) (stmt :: rest) self
  = '(retval, self) ← Spam.exec_stmt k stmt self;
    if is_None retval then Spam.exec k rest self else Ok (retval, self).
Proof. reflexivity. Qed.

Lemma _exec_S k stmt rest self :
  Viper._exec (S k) (stmt :: rest) self
  = '(retval, self) ← Viper.Statement_exec k stmt self;
    if is_None retval then Viper._exec k rest self else Ok (retval, self).
Proof. reflexivity. Qed.

(** X16: running the statement list [pre ++ post] in the prototype: when
    [pre] ends with a value other than None, that value is the result and
    [post] is not run; when [pre] ends with None, be it after a [return]
    whose expression is None, the run goes on with [post] in the state
    [pre] left. *)
Theorem prototype_statements_compose :
  forall pre post n m self v self1,
    Spam.exec n pre self = Ok (v, self1) ->
    if is_None v
    then mono (Spam.exec m post self1)
              (Spam.exec (length pre + (n + m)) (pre ++ post)%list self)
    else Spam.exec n (pre ++ post)%list self = Ok (v, self1).
Proof.
  induction pre as [|s pre IH]; intros post n m self v self1 H.
  - destruct n as [|f]; [discriminate|]. cbn in H. inversion H; subst.
    cbn [is_None app length Nat.add].
    apply (proj1 (proj2 (interp_mono_le m (S (f + m)) ltac:(lia)))).
  - destruct n as [|f]; [discriminate|]. rewrite exec_S in H.
    destruct (Spam.exec_stmt f s self) as [[v0 self0]| |] eqn:E;
      try discriminate.
    cbn [mbind result_bind] in H.
    destruct (is_None v0) eqn:N.
    + specialize (IH post f m self0 v self1 H).
      destruct (is_None v).
      * intros Hr. specialize (IH Hr).
        change (length (s :: pre) + (S f + m))%nat
          with (S (length pre + (S f + m))).
        cbn [app]. rewrite exec_S.
        rewrite (proj1 (interp_mono_le f (length pre + (S f + m)) ltac:(lia))
                   s self) by (rewrite E; discriminate).
        rewrite E. cbn [mbind result_bind]. rewrite N.
        rewrite (proj1 (proj2 (interp_mono_le (length pre + (f + m))
                                 (length pre + (S f + m)) ltac:(lia)))
                   (pre ++ post)%list self0) by (rewrite IH; exact Hr).
        exact IH.
      * cbn [app]. rewrite exec_S, E. cbn [mbind result_bind].
        rewrite N. exact IH.
    + inversion H; subst. rewrite N.
      cbn [app]. rewrite exec_S, E. cbn [mbind result_bind].
      rewrite N. reflexivity.
Qed.

(** [fn g() { }] is defined; in [return g(); print 7;] the call yields
    nothing, so the [return] does not return and 7 is printed. *)
Lemma prototype_statements_compose_witness :
  let g := Spam.FnStatement "g" [] [] in
  let self := Spam.mkInterpreter ∅ {["g" := g]} [] in
  let call :=
    Spam.mkExpression Spam.ExpressionKind.CALL
      (Spam.CallExpression (variable "g") []) in
  let ret :=
    Spam.mkStatement Spam.StatementKind.RETURN (Spam.ReturnStatement call) in
  let print7 :=
    Spam.mkStatement Spam.StatementKind.PRINT
      (Spam.PrintStatement (literal 7)) in
  Spam.exec 5 [ret] self = Ok (VNone, self)
  /\ mono (Spam.exec 3 [print7] self) (Spam.exec 9 [ret; print7] self)
  /\ Spam.exec 3 [print7] self
     = Ok (VNone, Spam.mkInterpreter ∅ {["g" := g]} [VFloat (float_of_Z 7)]).
Proof.
  intros g self call ret print7.
  split; [reflexivity|]. split; [|reflexivity].
  exact (prototype_statements_compose [ret] [print7] 5 3 self VNone self
           eq_refl).
Defined.

(** X22: running the statement list [pre ++ post] in the package: when
    [pre] ends with a value other than None, that value is the result and
    [post] is not run; when [pre] ends with None, be it after a [return]
    whose expression is None, the run goes on with [post] in the state
    [pre] left. *)
Theorem extended_statements_compose :
  forall pre post n m self v self1,
    Viper._exec n pre self = Ok (v, self1) ->
    if is_None v
    then mono (Viper._exec m post self1)
              (Viper._exec (length pre + (n + m)) (pre ++ post)%list self)
    else Viper._exec n (pre ++ post)%list self = Ok (v, self1).
Proof.
  induction pre as [|s pre IH]; intros post n m self v self1 H.
  - destruct n as [|f]; [discriminate|]. cbn in H. inversion H; subst.
    cbn [is_None app length Nat.add].
    apply (proj1 (proj2 (proj2 (proj2
             (viper_mono_le m (S (f + m)) ltac:(lia)))))).
  - destruct n as [|f]; [discriminate|]. rewrite _exec_S in H.
    destruct (Viper.Statement_exec f s self) as [[v0 self0]| |] eqn:E;
      try discriminate.
    cbn [mbind result_bind] in H.
    destruct (is_None v0) eqn:N.
    + specialize (IH post f m self0 v self1 H).
      destruct (is_None v).
      * intros Hr. specialize (IH Hr).
        change (length (s :: pre) + (S f + m))%nat
          with (S (length pre + (S f + m))).
        cbn [app]. rewrite _exec_S.
        rewrite (proj1 (proj2 (proj2
                   (viper_mono_le f (length pre + (S f + m)) ltac:(lia))))
                   s self) by (rewrite E; discriminate).
        rewrite E. cbn [mbind result_bind]. rewrite N.
        rewrite (proj1 (proj2 (proj2 (proj2
                   (viper_mono_le (length pre + (f + m))
                      (length pre + (S f + m)) ltac:(lia)))))
                   (pre ++ post)%list self0) by (rewrite IH; exact Hr).
        exact IH.
      * cbn [app]. rewrite _exec_S, E. cbn [mbind result_bind].
        rewrite N. exact IH.
    + inversion H; subst. rewrite N.
      cbn [app]. rewrite _exec_S, E. cbn [mbind result_bind].
      rewrite N. reflexivity.
Qed.

(** [return x = 1; print 7;]: the assignment has no value, so the
    [return] does not return and 7 is printed. *)
Lemma extended_statements_compose_witness :
  let self := Viper.mkInterpreter ∅ ∅ ∅ 0 [] in
  let self1 :=
    Viper.mkInterpreter {["x" := VFloat (float_of_Z 1)]} ∅ ∅ 0 [] in
  let ret :=
    Viper.ReturnStatement
      (Viper.AssignExpression (Viper.VariableExpression "x") (lit 1)) in
  let print7 := Viper.PrintStatement (lit 7) in
  Viper._exec 4 [ret] self = Ok (VNone, self1)
  /\ mono (Viper._exec 3 [print7] self1) (Viper._exec 8 [ret; print7] self)
  /\ Viper._exec 3 [print7] self1
     = Ok (VNone, Viper.print (VFloat (float_of_Z 7)) self1).
Proof.
  intros self self1 ret print7.
  split; [reflexivity|]. split; [|reflexivity].
  exact (extended_statements_compose [ret] [print7] 4 3 self VNone self1
           eq_refl).
Defined.

End Sequencing.
